(** * dec_mwpm: the minimum-weight-matching decoder of a surface-code lattice

    A shallow embedding of [dec_mwpm.py] (classes [toric] and [planar]) and
    the properties of its defect extraction, edge weights, boundary filter
    and correction walker.

    Python objects are modelled by references into a heap: a stabilizer or a
    boundary node is a [vref], a qubit edge an [eref]; the heap maps each
    reference to its fields.  The walker mutates edges in place, so the edge
    heap is threaded through [apply_matching]. *)

From stdpp Require Import base list strings gmap.
From Stdlib Require Import ZArith Lia ZifyNat.

Local Open Scope Z_scope.

(** ** Exceptions and the result monad *)

Inductive exn : Type :=
  | ZeroDivisionError
  | KeyError
  | IndexError
  | UnboundLocalError
  | OverflowError.

Inductive res (A : Type) : Type :=
  | Ok (a : A)
  | Raise (e : exn).
Arguments Ok {A} a.
Arguments Raise {A} e.

#[global] Instance res_ret : MRet res := fun _ a => Ok a.
#[global] Instance res_bind : MBind res := fun _ _ f m =>
  match m with
  | Ok a => f a
  | Raise e => Raise e
  end.

(** A [for] loop whose body updates local variables [St] and may raise. *)
Fixpoint for_each {A St : Type} (body : A -> St -> res St) (xs : list A) (s : St)
  : res St :=
  match xs with
  | [] => Ok s
  | x :: xs' => s' ← body x s; for_each body xs' s'
  end.

(** ** Python list primitives *)

(** [xs[start:stop]] with Python's treatment of negative and oversized
    bounds; [None] is an omitted bound. *)
Definition slice {A : Type} (start stop : option Z) (xs : list A) : list A :=
  let n := Z.of_nat (length xs) in
  let norm i := if i <? 0 then Z.max 0 (n + i) else Z.min i n in
  let a := from_option norm 0 start in
  let b := from_option norm n stop in
  take (Z.to_nat (b - a)) (drop (Z.to_nat a) xs).

(** [enumerate(xs, start)] *)
Definition enumerate {A : Type} (start : nat) (xs : list A) : list (nat * A) :=
  zip (seq start (length xs)) xs.

(** [xs[i]] for a non-negative index. *)
Definition getitem {A : Type} (xs : list A) (i : nat) : res A :=
  match xs !! i with
  | Some x => Ok x
  | None => Raise IndexError
  end.

(** [xs[i]] for any integer index: a negative one counts from the end. *)
Definition getitemZ {A : Type} (xs : list A) (i : Z) : res A :=
  let n := Z.of_nat (length xs) in
  if i <? 0
  then (if n + i <? 0 then Raise IndexError else getitem xs (Z.to_nat (n + i)))
  else getitem xs (Z.to_nat i).

(** ** The lattice objects ([graph_objects], used through their fields) *)

Abbreviation sID_t := (Z * Z * Z)%type.

Definition vref : Type := nat.
Definition eref : Type := nat.

(** The class of a node object: a stabilizer or a virtual boundary. *)
Inductive pyclass : Type := iStab | iBoundary.

#[global] Instance pyclass_eq_dec : EqDecision pyclass.
Proof. solve_decision. Defined.

(** The keys of [neighbors]: "u", "d", "l", "r". *)
Inductive direction : Type := Dir_u | Dir_d | Dir_l | Dir_r.

Record vertex : Type := Vertex {
  py_type : pyclass;
  sID : sID_t;
  stab_state : bool;
  neighbors : direction -> option (vref * eref)
}.

Record edge : Type := Edge {
  edge_state : bool;
  edge_matching : bool
}.

Record graph : Type := Graph {
  graph_size : Z;
  graph_type : string;
  graph_S : list (sID_t * vref);
  graph_B : gmap sID_t vref
}.

(** The decoder object with the heap its references point into. *)
Record world : Type := World {
  w_graph : graph;
  w_V : vref -> vertex;
  w_E : eref -> edge;
  w_matching : list (vref * vref)
}.

Definition sid_type (s : sID_t) : Z := s.1.1.
Definition sid_y (s : sID_t) : Z := s.1.2.
Definition sid_x (s : sID_t) : Z := s.2.

(** [graph.S.values()]: a dict iterates in insertion order. *)
Definition S_values (g : graph) : list vref := (graph_S g).*2.

(** [graph.B[key]] *)
Definition B_getitem (g : graph) (key : sID_t) : res vref :=
  match graph_B g !! key with
  | Some b => Ok b
  | None => Raise KeyError
  end.

(** [a % b] *)
Definition py_mod (a b : Z) : res Z :=
  if b =? 0 then Raise ZeroDivisionError else Ok (a mod b).

(** The integer value of the double nearest to the integer [s]: [s] itself
    up to 53 significant bits, beyond that the nearest multiple of the unit
    in the last place, a tie going to the even significand. *)
Definition round53 (s : Z) : Z :=
  let a := Z.abs s in
  let k := Z.log2 a - 52 in
  if k <=? 0 then s
  else
    let q := a / 2 ^ k in
    let r := a mod 2 ^ k in
    let half := 2 ^ (k - 1) in
    let q' := if (half <? r) || ((r =? half) && Z.odd q) then q + 1 else q in
    Z.sgn s * (q' * 2 ^ k).

(** [x < size/2] for integers [x] and [size]: the true division gives the
    double nearest to the quotient, which is the double nearest to [size]
    halved, and raises when that is beyond the doubles; the comparison of
    the integer with the double is exact. *)
Definition lt_half (x size : Z) : res bool :=
  let d := round53 size in
  if 2 ^ 1025 <=? Z.abs d then Raise OverflowError else Ok (2 * x <? d).

(** An entry [[i0, i1, weight]] of an edge list. *)
Abbreviation wedge := (nat * nat * Z)%type.

(** ** class toric *)

Module toric.

Definition get_stabs (g : graph) (V : vref -> vertex) : list vref * list vref :=
  fold_left
    (fun (acc : list vref * list vref) (stab : vref) =>
       let '(verts, plaqs) := acc in
       if stab_state (V stab)
       then (if sid_type (sID (V stab)) =? 0
             then (verts ++ [stab], plaqs)
             else (verts, plaqs ++ [stab]))
       else (verts, plaqs))
    (S_values g) ([], []).

(** The weight of one pair: the body of the inner loop of [get_edges]. *)
Definition weight (size : Z) (s0 s1 : sID_t) : res Z :=
  let '(_, y0, x0) := s0 in
  let '(_, y1, x1) := s1 in
  wy ← py_mod (y0 - y1) size;
  wx ← py_mod (x0 - x1) size;
  Ok (Z.min wy (size - wy) + Z.min wx (size - wx)).

Definition get_edges (g : graph) (V : vref -> vertex) (anyons : list vref)
  : res (list wedge) :=
  for_each
    (fun '(i0, v0) (edges : list wedge) =>
       for_each
         (fun '(i1, v1) (edges : list wedge) =>
            w ← weight (graph_size g) (sID (V v0)) (sID (V v1));
            Ok (edges ++ [((i0, i1 + i0 + 1)%nat, w)]))
         (enumerate 0 (slice (Some (Z.of_nat i0 + 1)) None anyons))
         edges)
    (enumerate 0 (slice None (Some (-1)) anyons))
    [].

End toric.

(** ** class planar(toric): the two overridden methods and the filter *)

Module planar.

Definition get_stabs (g : graph) (V : vref -> vertex)
  : res (list vref * list vref) :=
  acc ← for_each
    (fun (stab : vref) (acc : list vref * list vref * list vref * list vref) =>
       let '(verts, plaqs, tv, tp) := acc in
       let '(type, y, x) := sID (V stab) in
       if stab_state (V stab)
       then (if type =? 0
             then
               lt ← lt_half x (graph_size g);
               b ← (if lt : bool
                    then B_getitem g (type, y, 0)
                    else B_getitem g (type, y, graph_size g));
               Ok (verts ++ [stab], plaqs, tv ++ [b], tp)
             else
               lt ← lt_half y (graph_size g);
               b ← (if lt : bool
                    then B_getitem g (type, -1, x)
                    else B_getitem g (type, graph_size g - 1, x));
               Ok (verts, plaqs ++ [stab], tv, tp ++ [b]))
       else Ok acc)
    (S_values g) ([], [], [], []);
  let '(verts, plaqs, tv, tp) := acc in
  Ok (verts ++ tv, plaqs ++ tp).

(** Weight of a real-real pair: the body of the first nested loop. *)
Definition weight (s0 s1 : sID_t) : Z :=
  let '(_, y0, x0) := s0 in
  let '(_, y1, x1) := s1 in
  Z.abs (y0 - y1) + Z.abs (x0 - x1).

(** Weight of a defect and its companion: the body of the last loop; the
    second unpacking rebinds [type] to the companion's. *)
Definition boundary_weight (ss sb : sID_t) : Z :=
  let '(type, ys, xs) := ss in
  let '(type, yb, xb) := sb in
  if type =? 0 then Z.abs (xb - xs) else Z.abs (yb - ys).

Definition get_edges (g : graph) (V : vref -> vertex) (anyons : list vref)
  : res (list wedge) :=
  let mid := (length anyons / 2)%nat in
  let edges : list wedge := [] in
  let edges :=
    fold_left
      (fun (edges : list wedge) '(i0, v0) =>
         fold_left
           (fun (edges : list wedge) '(i1, v1) =>
              edges ++ [((i0, i1 + i0 + 1)%nat, weight (sID (V v0)) (sID (V v1)))])
           (enumerate 0
              (slice (Some (Z.of_nat i0 + 1)) (Some (Z.of_nat mid)) anyons))
           edges)
      (enumerate 0 (slice None (Some (Z.of_nat mid - 1)) anyons))
      edges in
  let edges :=
    fold_left
      (fun (edges : list wedge) '(i0, v0) =>
         fold_left
           (fun (edges : list wedge) '(i1, v1) => edges ++ [(i0, i1, 0)])
           (enumerate (i0 + 1) (slice (Some (Z.of_nat i0 + 1)) None anyons))
           edges)
      (enumerate mid (slice (Some (Z.of_nat mid)) (Some (-1)) anyons))
      edges in
  for_each
    (fun (i : nat) (edges : list wedge) =>
       vs ← getitem anyons i;
       vb ← getitem anyons (mid + i);
       Ok (edges ++ [((i, mid + i)%nat, boundary_weight (sID (V vs)) (sID (V vb)))]))
    (seq 0 mid)
    edges.

Definition remove_virtual (w : world) : world :=
  let matching :=
    fold_left
      (fun (matching : list (vref * vref)) '(V1, V2) =>
         if negb (bool_decide (py_type (w_V w V1) = iBoundary)
                  && bool_decide (py_type (w_V w V2) = iBoundary))
         then matching ++ [(V1, V2)]
         else matching)
      (w_matching w) [] in
  World (w_graph w) (w_V w) (w_E w) matching.

End planar.

(** ** Correction application (inherited by [planar] unchanged) *)

(** The four deltas of a matched pair, by geometry.  With any other
    [graph.type] neither branch binds them and the comparison that follows
    raises. *)
Definition deltas (g : graph) (s0 s1 : sID_t) : res (Z * Z * Z * Z) :=
  let size := graph_size g in
  let '(_, y0, x0) := s0 in
  let '(_, y1, x1) := s1 in
  if String.eqb (graph_type g) "toric" then
    dy0 ← py_mod (y0 - y1) size;
    dx0 ← py_mod (x0 - x1) size;
    dy1 ← py_mod (y1 - y0) size;
    dx1 ← py_mod (x1 - x0) size;
    Ok (dy0, dx0, dy1, dx1)
  else if String.eqb (graph_type g) "planar" then
    Ok (y0 - y1, x0 - x1, y1 - y0, x1 - x0)
  else Raise UnboundLocalError.

(** Closest path and walking direction: [(dy, yd, dx, xd)]. *)
Definition closest_path (ds : Z * Z * Z * Z) : Z * direction * Z * direction :=
  let '(dy0, dx0, dy1, dx1) := ds in
  let '(dy, yd) := if dy0 <? dy1 then (dy0, Dir_u) else (dy1, Dir_d) in
  let '(dx, xd) := if dx0 <? dx1 then (dx0, Dir_r) else (dx1, Dir_l) in
  (dy, yd, dx, xd).

Definition route (g : graph) (s0 s1 : sID_t) : res (Z * direction * Z * direction) :=
  ds ← deltas g s0 s1;
  Ok (closest_path ds).

(** [edge.state = not edge.state; edge.matching = not edge.matching] *)
Definition flip_edge (e : eref) (w : world) : world :=
  World (w_graph w) (w_V w)
    (fun e' =>
       if decide (e' = e)
       then Edge (negb (edge_state (w_E w e'))) (negb (edge_matching (w_E w e')))
       else w_E w e')
    (w_matching w).

(** [for _ in range(n): (v, edge) = v.neighbors[dir]; flip edge].  A
    missing key raises and leaves the edges flipped so far as they are. *)
Fixpoint walk (dir : direction) (n : nat) (v : vref) (w : world)
  : world * option exn :=
  match n with
  | O => (w, None)
  | S n' =>
      match neighbors (w_V w v) dir with
      | None => (w, Some KeyError)
      | Some (v', e) => walk dir n' v' (flip_edge e w)
      end
  end.

(** [range(k)] runs [k] times, and not at all for [k <= 0]. *)
Definition range_len (k : Z) : nat := Z.to_nat k.

(** The body of the loop over [self.matching]. *)
Definition apply_pair (p : vref * vref) (w : world) : world * option exn :=
  let '(v0, v1) := p in
  match route (w_graph w) (sID (w_V w v0)) (sID (w_V w v1)) with
  | Raise e => (w, Some e)
  | Ok (dy, yd, dx, xd) =>
      match walk yd (range_len dy) v0 w with
      | (w1, Some e) => (w1, Some e)
      | (w1, None) => walk xd (range_len dx) v1 w1
      end
  end.

Fixpoint apply_pairs (m : list (vref * vref)) (w : world) : world * option exn :=
  match m with
  | [] => (w, None)
  | p :: m' =>
      match apply_pair p w with
      | (w1, Some e) => (w1, Some e)
      | (w1, None) => apply_pairs m' w1
      end
  end.

Definition apply_matching (w : world) : world * option exn :=
  apply_pairs (w_matching w) w.

(** *** The edges a run traverses, in order

    These read the lattice only; they list the edges at which [walk],
    [apply_pair] and [apply_matching] flip, up to the step that raises. *)

Fixpoint walk_trace (V : vref -> vertex) (dir : direction) (n : nat) (v : vref)
  : list eref * option exn :=
  match n with
  | O => ([], None)
  | S n' =>
      match neighbors (V v) dir with
      | None => ([], Some KeyError)
      | Some (v', e) =>
          let '(t, r) := walk_trace V dir n' v' in (e :: t, r)
      end
  end.

Definition pair_trace (g : graph) (V : vref -> vertex) (p : vref * vref)
  : list eref * option exn :=
  let '(v0, v1) := p in
  match route g (sID (V v0)) (sID (V v1)) with
  | Raise e => ([], Some e)
  | Ok (dy, yd, dx, xd) =>
      match walk_trace V yd (range_len dy) v0 with
      | (t0, Some e) => (t0, Some e)
      | (t0, None) =>
          let '(t1, r) := walk_trace V xd (range_len dx) v1 in (t0 ++ t1, r)
      end
  end.

Fixpoint pairs_trace (g : graph) (V : vref -> vertex) (m : list (vref * vref))
  : list eref * option exn :=
  match m with
  | [] => ([], None)
  | p :: m' =>
      match pair_trace g V p with
      | (t, Some e) => (t, Some e)
      | (t, None) => let '(t', r) := pairs_trace g V m' in (t ++ t', r)
      end
  end.

Definition matching_trace (w : world) : list eref * option exn :=
  pairs_trace (w_graph w) (w_V w) (w_matching w).

(** Number of times [e] occurs in a trace. *)
Definition visits (e : eref) (t : list eref) : nat :=
  length (filter (fun e' => e' = e) t).

(** Flipping the edges of a trace one after the other. *)
Definition flip_all (t : list eref) (w : world) : world :=
  fold_left (fun w e => flip_edge e w) t w.

(** ** The two matching adapters

    [planar] inherits them and overrides [get_stabs] and [get_edges], so
    each adapter dispatches through the methods of its class. *)

Record decoder_class : Type := DecoderClass {
  cls_get_stabs : graph -> (vref -> vertex) -> res (list vref * list vref);
  cls_get_edges : graph -> (vref -> vertex) -> list vref -> res (list wedge)
}.

Definition toric_class : decoder_class :=
  DecoderClass (fun g V => Ok (toric.get_stabs g V)) toric.get_edges.

Definition planar_class : decoder_class :=
  DecoderClass planar.get_stabs planar.get_edges.

(** [nx.Graph()]: its weighted edges in insertion order. *)
Abbreviation nxgraph := (list (nat * nat * Z)).

Definition same_edge (i j a b : nat) : bool :=
  (Nat.eqb a i && Nat.eqb b j) || (Nat.eqb a j && Nat.eqb b i).

(** [G.add_edge(i, j, weight=w)]: a new edge, or a new weight for an
    edge the graph already has. *)
Fixpoint add_edge (G : nxgraph) (i j : nat) (w : Z) : nxgraph :=
  match G with
  | [] => [(i, j, w)]
  | (a, b, w0) :: G' =>
      if same_edge i j a b then (a, b, w) :: G' else (a, b, w0) :: add_edge G' i j w
  end.

(** [[f(x) for x in xs]] where [f] may raise. *)
Fixpoint comprehension {A B : Type} (f : A -> res B) (xs : list A) : res (list B) :=
  match xs with
  | [] => Ok []
  | x :: xs' => y ← f x; ys ← comprehension f xs'; Ok (y :: ys)
  end.

Definition set_matching (m : list (vref * vref)) (w : world) : world :=
  World (w_graph w) (w_V w) (w_E w) m.

Section Oracles.

(** [nx.algorithms.matching.max_weight_matching(G, maxcardinality=True)],
    its set of pairs in iteration order. *)
Variable max_weight_matching : nxgraph -> list (nat * nat).

(** [pm.getMatching(n, edges)]: entry [i] is the partner of node [i]. *)
Variable getMatching : nat -> list wedge -> list Z.

(** The inner [get_matching] of [get_matching_networkx].  It closes over
    the one [nxgraph] of the enclosing call: the graph comes in and goes
    out. *)
Definition networkx_get_matching (C : decoder_class) (w : world)
    (nxg : nxgraph) (anyons : list vref) : nxgraph * res (list (vref * vref)) :=
  match cls_get_edges C (w_graph w) (w_V w) anyons with
  | Raise e => (nxg, Raise e)
  | Ok edges =>
      let nxg' :=
        fold_left (fun (G : nxgraph) '(i0, i1, weight) => add_edge G i0 i1 (- weight))
          edges nxg in
      let output := max_weight_matching nxg' in
      (nxg',
       comprehension
         (fun '(i0, i1) => a ← getitem anyons i0; b ← getitem anyons i1; Ok (a, b))
         output)
  end.

Definition get_matching_networkx (C : decoder_class) (w : world)
  : world * option exn :=
  let nxg : nxgraph := [] in
  match cls_get_stabs C (w_graph w) (w_V w) with
  | Raise e => (w, Some e)
  | Ok (verts, plaqs) =>
      let w := set_matching [] w in
      let '(nxg, r1) :=
        match verts with
        | [] => (nxg, Ok [])
        | _ :: _ => networkx_get_matching C w nxg verts
        end in
      match r1 with
      | Raise e => (w, Some e)
      | Ok m1 =>
          let w := set_matching (w_matching w ++ m1) w in
          let '(nxg, r2) :=
            match plaqs with
            | [] => (nxg, Ok [])
            | _ :: _ => networkx_get_matching C w nxg plaqs
            end in
          match r2 with
          | Raise e => (w, Some e)
          | Ok m2 => (set_matching (w_matching w ++ m2) w, None)
          end
      end
  end.

(** The inner [get_matching] of [get_matching_blossom5]. *)
Definition blossom5_get_matching (C : decoder_class) (w : world)
    (anyons : list vref) : res (list (vref * vref)) :=
  edges ← cls_get_edges C (w_graph w) (w_V w) anyons;
  let output := getMatching (length anyons) edges in
  comprehension
    (fun '(i0, i1) => a ← getitem anyons i0; b ← getitemZ anyons i1; Ok (a, b))
    (filter (fun '(i0, i1) => i1 < Z.of_nat i0) (enumerate 0 output)).

Definition get_matching_blossom5 (C : decoder_class) (w : world)
  : world * option exn :=
  match cls_get_stabs C (w_graph w) (w_V w) with
  | Raise e => (w, Some e)
  | Ok (verts, plaqs) =>
      let w := set_matching [] w in
      let r1 :=
        match verts with
        | [] => Ok []
        | _ :: _ => blossom5_get_matching C w verts
        end in
      match r1 with
      | Raise e => (w, Some e)
      | Ok m1 =>
          let w := set_matching (w_matching w ++ m1) w in
          let r2 :=
            match plaqs with
            | [] => Ok []
            | _ :: _ => blossom5_get_matching C w plaqs
            end in
          match r2 with
          | Raise e => (w, Some e)
          | Ok m2 => (set_matching (w_matching w ++ m2) w, None)
          end
      end
  end.

End Oracles.

(** ** A reference oracle

    The solvers are external; to run the adapters on a concrete syndrome
    this exhaustive search stands in for both: it lists the perfect
    matchings of the given nodes over the given edges and keeps the first
    one of least total weight (no perfect matching: the empty answer). *)

Module oracle.

Definition edge_weight (G : nxgraph) (a b : nat) : option Z :=
  snd <$> head (filter (fun '(i, j, _) => same_edge a b i j = true) G).

Fixpoint perfect_matchings (fuel : nat) (G : nxgraph) (nodes : list nat)
  : list (Z * list (nat * nat)) :=
  match fuel with
  | O => []
  | S fuel' =>
      match nodes with
      | [] => [(0, [])]
      | a :: rest =>
          rest ≫= fun b =>
            match edge_weight G a b with
            | None => []
            | Some w =>
                (fun '(tot, m) => (w + tot, (a, b) :: m))
                  <$> perfect_matchings fuel' G (filter (fun c => c <> b) rest)
            end
      end
  end.

Definition least (cands : list (Z * list (nat * nat))) : list (nat * nat) :=
  match cands with
  | [] => []
  | c :: cands' =>
      snd (fold_left (fun best c' => if c'.1 <? best.1 then c' else best) cands' c)
  end.

(** The nodes of a graph, in the order its edges introduce them. *)
Definition nodes (G : nxgraph) : list nat :=
  remove_dups (G ≫= fun '(i, j, _) => [i; j]).

(** For [max_weight_matching]: the adapter negates the weights, so the
    heaviest matching is the lightest of the negated graph's negation. *)
Definition max_weight_matching (G : nxgraph) : list (nat * nat) :=
  least (perfect_matchings (S (length (nodes G)))
           ((fun '(i, j, w) => (i, j, - w)) <$> G) (nodes G)).

(** For [getMatching]: the partner of every node, [-1] for none. *)
Definition getMatching (n : nat) (edges : list wedge) : list Z :=
  let m := least (perfect_matchings (S n) edges (seq 0 n)) in
  (fun i =>
     match head (filter (fun '(a, b) => a = i \/ b = i) m) with
     | Some (a, b) => Z.of_nat (if decide (a = i) then b else a)
     | None => -1
     end) <$> seq 0 n.

End oracle.

(** ** Concrete lattices

    [graph_objects] builds the lattice; the decoder only follows its links.
    These two builders lay out a periodic and a bounded lattice the way the
    decoder expects them, to run it on concrete syndromes. *)

Module lattice.

(** *** Periodic lattice of side [L]: node [(t, y, x)] is reference
    [(t * L + y) * L + x]; the edge to the right of node [v] is [2 * v], the
    edge below it [2 * v + 1]. *)

Definition tor_ref (L t y x : nat) : vref := ((t * L + y) * L + x)%nat.

Definition tor_vertex (L : nat) (active : list vref) (v : vref) : vertex :=
  let x := (v mod L)%nat in
  let y := ((v / L) mod L)%nat in
  let t := (v / (L * L))%nat in
  Vertex iStab (Z.of_nat t, Z.of_nat y, Z.of_nat x) (bool_decide (v ∈ active))
    (fun dir =>
       match dir with
       | Dir_u => let v' := tor_ref L t ((y + L - 1) mod L) x in Some (v', (2 * v' + 1)%nat)
       | Dir_d => let v' := tor_ref L t ((y + 1) mod L) x in Some (v', (2 * v + 1)%nat)
       | Dir_l => let v' := tor_ref L t y ((x + L - 1) mod L) in Some (v', (2 * v')%nat)
       | Dir_r => let v' := tor_ref L t y ((x + 1) mod L) in Some (v', (2 * v)%nat)
       end).

Definition tor_graph (L : nat) : graph :=
  Graph (Z.of_nat L) "toric"
    (map (fun v => (sID (tor_vertex L [] v), v)) (seq 0 (2 * L * L)))
    ∅.

Definition clean : eref -> edge := fun _ => Edge false false.

Definition tor_world (L : nat) (active : list vref) (m : list (vref * vref)) : world :=
  World (tor_graph L) (tor_vertex L active) clean m.

(** *** Bounded lattice of side [L]: vertex stabilizers in columns
    [1 .. L-1] with boundary nodes in columns [0] and [L]; plaquette
    stabilizers in rows [0 .. L-2] with boundary nodes in rows [-1] and
    [L-1].  Node [(t, y, x)] of class [c] (0 stabilizer, 1 boundary) is
    reference [((2c + t) * (L+2) + (y+1)) * (L+2) + (x+1)]. *)

Definition pl_ref (L : nat) (c t : nat) (y x : Z) : vref :=
  let M := Z.of_nat L + 2 in
  Z.to_nat (((Z.of_nat c * 2 + Z.of_nat t) * M + (y + 1)) * M + (x + 1)).

Definition pl_node (L : nat) (t : nat) (y x : Z) : option vref :=
  let n := Z.of_nat L in
  if Nat.eqb t 0 then
    if (y <? 0) || (n <=? y) || (x <? 0) || (n <? x) then None
    else if (x =? 0) || (x =? n) then Some (pl_ref L 1 t y x)
    else Some (pl_ref L 0 t y x)
  else
    if (x <? 0) || (n <=? x) || (y <? -1) || (n - 1 <? y) then None
    else if (y =? -1) || (y =? n - 1) then Some (pl_ref L 1 t y x)
    else Some (pl_ref L 0 t y x).

Definition pl_vertex (L : nat) (active : list vref) (v : vref) : vertex :=
  let M := (L + 2)%nat in
  let x := Z.of_nat (v mod M) - 1 in
  let y := Z.of_nat ((v / M) mod M) - 1 in
  let t := ((v / (M * M)) mod 2)%nat in
  let c := (v / (M * M) / 2)%nat in
  Vertex (if Nat.eqb c 0 then iStab else iBoundary)
    (Z.of_nat t, y, x) (bool_decide (v ∈ active))
    (fun dir =>
       if Nat.eqb c 0 then
         match dir with
         | Dir_u => v' ← pl_node L t (y - 1) x; Some (v', (2 * v' + 1)%nat)
         | Dir_d => v' ← pl_node L t (y + 1) x; Some (v', (2 * v + 1)%nat)
         | Dir_l => v' ← pl_node L t y (x - 1); Some (v', (2 * v')%nat)
         | Dir_r => v' ← pl_node L t y (x + 1); Some (v', (2 * v)%nat)
         end
       else None).

Definition pl_graph (L : nat) : graph :=
  let zs := map Z.of_nat (seq 0 L) in
  let n := Z.of_nat L in
  Graph n "planar"
    (flat_map (fun y => flat_map (fun x =>
        if (0 <? x) then [((0, y, x), pl_ref L 0 0 y x)] else []) zs) zs
     ++ flat_map (fun y => flat_map (fun x =>
        if (y <? n - 1) then [((1, y, x), pl_ref L 0 1 y x)] else []) zs) zs)
    (list_to_map
       (flat_map (fun k =>
          [((0, k, 0), pl_ref L 1 0 k 0); ((0, k, n), pl_ref L 1 0 k n);
           ((1, -1, k), pl_ref L 1 1 (-1) k); ((1, n - 1, k), pl_ref L 1 1 (n - 1) k)])
          zs)).

Definition pl_world (L : nat) (active : list vref) (m : list (vref * vref)) : world :=
  World (pl_graph L) (pl_vertex L active) clean m.

End lattice.

(** ** Specification-side notions *)

(** [d] is the distance between coordinates [a] and [b] on a ring of [n]
    sites: the least [|a - b + k n|] over all windings [k]. *)
Definition ring_distance (n a b d : Z) : Prop :=
  (exists k, d = Z.abs (a - b + k * n)) /\ forall k, d <= Z.abs (a - b + k * n).

(** The Manhattan distance on the torus of side [n]. *)
Definition torus_distance (n : Z) (s0 s1 : sID_t) (d : Z) : Prop :=
  exists dy dx,
    ring_distance n (sid_y s0) (sid_y s1) dy /\
    ring_distance n (sid_x s0) (sid_x s1) dx /\
    d = dy + dx.

(** ** Where a walk ends *)

(** The node [ynext] (or [xnext]) holds after the loop of a leg: [None]
    when a link is missing on the way. *)
Fixpoint walk_end (V : vref -> vertex) (dir : direction) (n : nat) (v : vref)
  : option vref :=
  match n with
  | O => Some v
  | S n' =>
      match neighbors (V v) dir with
      | None => None
      | Some (v', _) => walk_end V dir n' v'
      end
  end.

(** ** Well-formed solver graphs *)

(** A graph whose edges are all written [(a, b)] with [a < b] and none
    twice: what [add_edge] builds from the entries of [get_edges]. *)
Definition nx_wf (G : nxgraph) : Prop :=
  NoDup (G.*1) /\ forall a b c, ((a, b), c) ∈ G -> (a < b)%nat.

(** * Loops and slices *)

Section loops.
Context {A B : Type}.

Lemma for_each_append (body : A -> list B -> res (list B)) (f : A -> list B)
    (xs : list A) (acc : list B) :
  (forall x s, x ∈ xs -> body x s = Ok (s ++ f x)) ->
  for_each body xs acc = Ok (acc ++ xs ≫= f).
Proof.
  revert acc. induction xs as [|x xs IH]; intros acc Hb; simpl.
  - by rewrite app_nil_r.
  - rewrite Hb by left. simpl. rewrite IH.
    + by rewrite <- app_assoc.
    + intros y s Hy. apply Hb. by right.
Qed.

Lemma fold_left_append (body : list B -> A -> list B) (f : A -> list B)
    (xs : list A) (acc : list B) :
  (forall x s, x ∈ xs -> body s x = s ++ f x) ->
  fold_left body xs acc = acc ++ xs ≫= f.
Proof.
  revert acc. induction xs as [|x xs IH]; intros acc Hb; simpl.
  - by rewrite app_nil_r.
  - rewrite Hb by left. rewrite IH.
    + by rewrite <- app_assoc.
    + intros y s Hy. apply Hb. by right.
Qed.

Lemma elem_of_enumerate (s i : nat) (v : A) (xs : list A) :
  (i, v) ∈ enumerate s xs <-> (s <= i)%nat /\ xs !! (i - s)%nat = Some v.
Proof.
  unfold enumerate. rewrite list_elem_of_lookup. split.
  - intros [k Hk]. apply lookup_zip_Some in Hk as [Hs Hv].
    apply lookup_seq in Hs as [-> Hlt].
    split; [lia|]. by replace (s + k - s)%nat with k by lia.
  - intros [Hle Hv]. exists (i - s)%nat. apply lookup_zip_Some. split; [|done].
    apply lookup_seq. split; [lia|]. by apply lookup_lt_Some in Hv.
Qed.

Lemma NoDup_enumerate (s : nat) (xs : list A) : NoDup (enumerate s xs).
Proof.
  unfold enumerate. apply (NoDup_fmap_1 fst).
  rewrite fst_zip by (rewrite length_seq; lia). apply NoDup_seq.
Qed.

Lemma enumerate_functional (s i : nat) (v v' : A) (xs : list A) :
  (i, v) ∈ enumerate s xs -> (i, v') ∈ enumerate s xs -> v = v'.
Proof. rewrite !elem_of_enumerate. intros [_ H1] [_ H2]. congruence. Qed.

Lemma slice_drop_last (xs : list A) :
  slice None (Some (-1)) xs = take (length xs - 1) xs.
Proof.
  unfold slice. simpl. rewrite drop_0. f_equal. lia.
Qed.

Lemma slice_bounds (a b : Z) (xs : list A) :
  0 <= a -> 0 <= b ->
  slice (Some a) (Some b) xs
  = take (Z.to_nat (Z.min b (Z.of_nat (length xs))) - Z.to_nat a) (drop (Z.to_nat a) xs).
Proof.
  intros Ha Hb. unfold slice. cbn [from_option].
  destruct (Z.ltb_spec a 0); [lia|]. destruct (Z.ltb_spec b 0); [lia|].
  destruct (decide (a <= Z.of_nat (length xs))).
  - rewrite (Z.min_l a) by done. f_equal. lia.
  - rewrite !(drop_ge xs) by lia. by rewrite !take_nil.
Qed.

Lemma slice_from (a : nat) (xs : list A) :
  slice (Some (Z.of_nat a + 1)) None xs = drop (S a) xs.
Proof.
  unfold slice. cbn [from_option].
  destruct (Z.ltb_spec (Z.of_nat a + 1) 0); [lia|].
  destruct (decide (S a <= length xs)%nat).
  - rewrite (Z.min_l (Z.of_nat a + 1)) by lia. replace (Z.to_nat (Z.of_nat a + 1)) with (S a) by lia.
    apply take_ge. rewrite length_drop. lia.
  - rewrite !(drop_ge xs) by lia. by rewrite take_nil.
Qed.

Lemma slice_between (a b : nat) (xs : list A) :
  (b <= length xs)%nat ->
  slice (Some (Z.of_nat a + 1)) (Some (Z.of_nat b)) xs
  = take (b - S a) (drop (S a) xs).
Proof.
  intros Hb. rewrite slice_bounds by lia.
  rewrite Z.min_l by lia. f_equal; [lia|]. f_equal. lia.
Qed.

End loops.

(** * Toric edge weights *)

Lemma toric_weight_ok (n : Z) (s0 s1 : sID_t) :
  n <> 0 ->
  toric.weight n s0 s1
  = Ok (Z.min ((sid_y s0 - sid_y s1) mod n) (n - (sid_y s0 - sid_y s1) mod n)
        + Z.min ((sid_x s0 - sid_x s1) mod n) (n - (sid_x s0 - sid_x s1) mod n)).
Proof.
  intros Hn. destruct s0 as [[t0 y0] x0], s1 as [[t1 y1] x1].
  unfold toric.weight, py_mod, sid_y, sid_x. simpl.
  destruct (Z.eqb_spec n 0); [done|]. reflexivity.
Qed.

Lemma ring_distance_min (n a b : Z) :
  0 < n ->
  ring_distance n a b (Z.min ((a - b) mod n) (n - (a - b) mod n)).
Proof.
  intros Hn.
  pose proof (Z.div_mod (a - b) n ltac:(lia)) as Hdm.
  pose proof (Z.mod_pos_bound (a - b) n Hn) as Hr.
  set (r := (a - b) mod n) in *. set (q := (a - b) / n) in *.
  split.
  - destruct (Z.le_gt_cases r (n - r)).
    + exists (- q). rewrite Z.min_l by done. replace (a - b + - q * n) with r by lia. lia.
    + exists (- (q + 1)). rewrite Z.min_r by lia.
      replace (a - b + - (q + 1) * n) with (r - n) by lia. lia.
  - intros k. replace (a - b + k * n) with (r + (q + k) * n) by lia.
    destruct (Z.le_gt_cases 0 (q + k)); nia.
Qed.

Lemma mod_opp_min (n a b : Z) :
  n <> 0 ->
  Z.min ((b - a) mod n) (n - (b - a) mod n)
  = Z.min ((a - b) mod n) (n - (a - b) mod n).
Proof.
  intros Hn. replace (b - a) with (- (a - b)) by lia.
  destruct (Z.eq_dec ((a - b) mod n) 0) as [H0|H0].
  - rewrite Z.mod_opp_l_z by done. by rewrite H0.
  - rewrite Z.mod_opp_l_nz by done. lia.
Qed.

Lemma toric_weight_sym (n : Z) (s0 s1 : sID_t) :
  toric.weight n s0 s1 = toric.weight n s1 s0.
Proof.
  destruct (Z.eq_dec n 0) as [->|Hn].
  - by destruct s0 as [[? ?] ?], s1 as [[? ?] ?].
  - rewrite !toric_weight_ok by done. f_equal.
    by rewrite (mod_opp_min n (sid_y s0)), (mod_opp_min n (sid_x s0)).
Qed.

(** The pairs [i < j < m] of a list, as the nested loops of [get_edges]
    enumerate them. *)
Lemma elem_of_pairs_below {B : Type} (anyons : list vref) (m : nat)
    (F : vref -> vref -> B) (i j : nat) (w : B) :
  (m <= length anyons)%nat ->
  ((i, j), w) ∈ (enumerate 0 (take (m - 1) anyons) ≫= fun '(i0, v0) =>
        enumerate 0 (take (m - S i0) (drop (S i0) anyons)) ≫= fun '(i1, v1) =>
        [((i0, i1 + i0 + 1)%nat, F v0 v1)])
  <-> (i < j < m)%nat /\ exists v0 v1,
        anyons !! i = Some v0 /\ anyons !! j = Some v1 /\ w = F v0 v1.
Proof.
  intros Hm. rewrite list_elem_of_bind. split.
  - intros [[i0 v0] [Hin H0]]. apply list_elem_of_bind in Hin as [[i1 v1] [Hin H1]].
    apply list_elem_of_singleton in Hin. injection Hin as -> -> ->.
    apply elem_of_enumerate in H0 as [_ H0], H1 as [_ H1].
    rewrite Nat.sub_0_r in H0, H1.
    apply lookup_take_Some in H0 as [H0 ?].
    apply lookup_take_Some in H1 as [H1 ?]. rewrite lookup_drop in H1.
    split; [lia|]. exists v0, v1. split_and!; [done| |done].
    rewrite <- H1. f_equal. lia.
  - intros [Hlt (v0 & v1 & H0 & H1 & ->)].
    exists (i, v0). split.
    + apply list_elem_of_bind. exists ((j - i - 1)%nat, v1). split.
      * replace (j - i - 1 + i + 1)%nat with j by lia. by apply list_elem_of_singleton.
      * apply elem_of_enumerate. split; [lia|]. apply lookup_take_Some.
        split; [|lia]. rewrite lookup_drop, <- H1. f_equal. lia.
    + apply elem_of_enumerate. split; [lia|]. rewrite Nat.sub_0_r.
      apply lookup_take_Some. split; [done|lia].
Qed.

Lemma NoDup_pairs_below {B : Type} (anyons : list vref) (m : nat)
    (F : vref -> vref -> B) :
  (m <= length anyons)%nat ->
  NoDup ((enumerate 0 (take (m - 1) anyons) ≫= fun '(i0, v0) =>
        enumerate 0 (take (m - S i0) (drop (S i0) anyons)) ≫= fun '(i1, v1) =>
        [((i0, i1 + i0 + 1)%nat, F v0 v1)]).*1).
Proof.
  intros Hm. apply NoDup_fmap_fst.
  - intros [i j] w w'. rewrite !elem_of_pairs_below by done.
    intros [_ (a & b & ? & ? & ->)] [_ (a' & b' & ? & ? & ->)]. congruence.
  - apply NoDup_bind; [| |apply NoDup_enumerate].
    + intros [i0 v0] [i0' v0'] [[i j] w] Hx Hx' Hy Hy'.
      apply list_elem_of_bind in Hy as [[i1 v1] [Hy _]].
      apply list_elem_of_bind in Hy' as [[i1' v1'] [Hy' _]].
      apply list_elem_of_singleton in Hy, Hy'.
      injection Hy as -> _ _. injection Hy' as -> _ _.
      f_equal. eapply enumerate_functional; eauto.
    + intros [i0 v0] _. apply NoDup_bind; [| |apply NoDup_enumerate].
      * intros [i1 v1] [i1' v1'] [[i j] w] Hx Hx' Hy Hy'.
        apply list_elem_of_singleton in Hy, Hy'.
        injection Hy as _ -> _. injection Hy' as _ Hj _.
        assert (i1 = i1') as -> by lia.
        f_equal. eapply enumerate_functional; eauto.
      * intros [i1 v1] _. apply NoDup_singleton.
Qed.

(** The edge list of [toric.get_edges] as one expression. *)
Lemma toric_get_edges_eq (g : graph) (V : vref -> vertex) (anyons : list vref)
    (W : sID_t -> sID_t -> Z) :
  (forall s0 s1, toric.weight (graph_size g) s0 s1 = Ok (W s0 s1)) ->
  toric.get_edges g V anyons
  = Ok (enumerate 0 (take (length anyons - 1) anyons) ≫= fun '(i0, v0) =>
        enumerate 0 (take (length anyons - S i0) (drop (S i0) anyons)) ≫= fun '(i1, v1) =>
        [((i0, i1 + i0 + 1)%nat, W (sID (V v0)) (sID (V v1)))]).
Proof.
  intros HW. unfold toric.get_edges.
  rewrite slice_drop_last.
  erewrite for_each_append; [reflexivity|].
  intros [i0 v0] s _. rewrite slice_from.
  rewrite (take_ge (drop (S i0) anyons)) by (rewrite length_drop; lia).
  apply for_each_append. intros [i1 v1] s' _. by rewrite HW.
Qed.

(** C3.  On a toric lattice of size [n > 0], [toric.get_edges] returns one
    edge for every index pair [i < j] of the partition and nothing else; its
    weight is [min(wy, n - wy) + min(wx, n - wx)] with [wy], [wx] the row and
    column deltas modulo [n], which is the Manhattan distance on the torus of
    side [n], and the weight of a pair is the same with the two defects
    swapped. *)
Theorem toric_get_edges_torus_distance (g : graph) (V : vref -> vertex)
    (anyons : list vref) :
  let n := graph_size g in
  0 < n ->
  exists edges,
    toric.get_edges g V anyons = Ok edges /\
    NoDup (edges.*1) /\
    (forall i j w, ((i, j), w) ∈ edges <->
       (i < j)%nat /\ exists v0 v1,
         anyons !! i = Some v0 /\ anyons !! j = Some v1 /\
         let wy := (sid_y (sID (V v0)) - sid_y (sID (V v1))) mod n in
         let wx := (sid_x (sID (V v0)) - sid_x (sID (V v1))) mod n in
         w = Z.min wy (n - wy) + Z.min wx (n - wx)) /\
    (forall i j w, ((i, j), w) ∈ edges -> forall v0 v1,
         anyons !! i = Some v0 -> anyons !! j = Some v1 ->
         torus_distance n (sID (V v0)) (sID (V v1)) w /\
         toric.weight n (sID (V v0)) (sID (V v1)) = Ok w /\
         toric.weight n (sID (V v1)) (sID (V v0)) = Ok w).
Proof.
  intros n Hn. eexists. split; [|split; [|split]].
  - apply toric_get_edges_eq. intros s0 s1. apply toric_weight_ok. fold n. lia.
  - by apply (NoDup_pairs_below anyons (length anyons)).
  - intros i j w. rewrite (elem_of_pairs_below anyons (length anyons)) by done.
    split.
    + intros [? (v0 & v1 & ? & ? & ->)]. split; [lia|]. by exists v0, v1.
    + intros [? (v0 & v1 & ? & H1 & ->)]. split; [|by exists v0, v1].
      apply lookup_lt_Some in H1. lia.
  - intros i j w Hin v0 v1 H0 H1.
    apply (elem_of_pairs_below anyons (length anyons)) in Hin
      as [_ (a & b & Ha & Hb & ->)]; [|done].
    assert (a = v0) as -> by congruence. assert (b = v1) as -> by congruence.
    split; [|split].
    + eexists _, _. split_and!; [apply ring_distance_min, Hn..|reflexivity].
    + apply toric_weight_ok. lia.
    + rewrite toric_weight_sym. apply toric_weight_ok. lia.
Qed.

(** * Planar edge classes *)

Lemma slice_upto_pred {A : Type} (mid : nat) (xs : list A) :
  length xs = (2 * mid)%nat ->
  slice None (Some (Z.of_nat mid - 1)) xs = take (mid - 1) xs.
Proof.
  intros Hlen. unfold slice. cbn [from_option]. rewrite drop_0.
  destruct (Z.ltb_spec (Z.of_nat mid - 1) 0).
  - assert (mid = 0)%nat as -> by lia. destruct xs; [done|simpl in Hlen; lia].
  - f_equal. lia.
Qed.

Lemma slice_tail_but_last {A : Type} (mid : nat) (xs : list A) :
  (mid <= length xs)%nat ->
  slice (Some (Z.of_nat mid)) (Some (-1)) xs
  = take (length xs - 1 - mid) (drop mid xs).
Proof.
  intros Hlen. unfold slice. cbn [from_option].
  destruct (Z.ltb_spec (Z.of_nat mid) 0); [lia|].
  replace (-1 <? 0) with true by done.
  rewrite (Z.min_l (Z.of_nat mid)) by lia. rewrite Nat2Z.id. f_equal. lia.
Qed.

(** The zero-weight pairs among the nodes from [mid] on. *)
Lemma elem_of_virtual_pairs (anyons : list vref) (mid i j : nat) (w : Z) :
  (mid <= length anyons)%nat ->
  ((i, j), w) ∈ (enumerate mid (take (length anyons - 1 - mid) (drop mid anyons))
       ≫= fun '(i0, v0) =>
        enumerate (i0 + 1) (drop (S i0) anyons) ≫= fun '(i1, v1) =>
        [((i0, i1), 0)])
  <-> (mid <= i < j)%nat /\ (j < length anyons)%nat /\ w = 0.
Proof.
  intros Hm. rewrite list_elem_of_bind. split.
  - intros [[i0 v0] [Hin H0]]. apply list_elem_of_bind in Hin as [[i1 v1] [Hin H1]].
    apply list_elem_of_singleton in Hin. injection Hin as -> -> ->.
    apply elem_of_enumerate in H0 as [? H0], H1 as [? H1].
    rewrite lookup_drop in H1. apply lookup_lt_Some in H1. lia.
  - intros (Hlt & Hj & ->).
    destruct (lookup_lt_is_Some_2 anyons i ltac:(lia)) as [v0 H0].
    destruct (lookup_lt_is_Some_2 anyons j ltac:(lia)) as [v1 H1].
    exists (i, v0). split.
    + apply list_elem_of_bind. exists (j, v1). split; [by apply list_elem_of_singleton|].
      apply elem_of_enumerate. split; [lia|]. rewrite lookup_drop, <- H1. f_equal. lia.
    + apply elem_of_enumerate. split; [lia|]. apply lookup_take_Some.
      split; [|lia]. rewrite lookup_drop, <- H0. f_equal. lia.
Qed.

Lemma NoDup_virtual_pairs (anyons : list vref) (mid : nat) :
  (mid <= length anyons)%nat ->
  NoDup ((enumerate mid (take (length anyons - 1 - mid) (drop mid anyons))
       ≫= fun '(i0, v0) =>
        enumerate (i0 + 1) (drop (S i0) anyons) ≫= fun '(i1, v1) =>
        [((i0, i1), 0)]).*1).
Proof.
  intros Hm. apply NoDup_fmap_fst.
  - intros [i j] w w'. rewrite !elem_of_virtual_pairs by done.
    intros (_ & _ & ->) (_ & _ & ->). done.
  - apply NoDup_bind; [| |apply NoDup_enumerate].
    + intros [i0 v0] [i0' v0'] [[i j] w] Hx Hx' Hy Hy'.
      apply list_elem_of_bind in Hy as [[i1 v1] [Hy _]].
      apply list_elem_of_bind in Hy' as [[i1' v1'] [Hy' _]].
      apply list_elem_of_singleton in Hy, Hy'.
      injection Hy as -> _ _. injection Hy' as -> _ _.
      f_equal. eapply enumerate_functional; eauto.
    + intros [i0 v0] _. apply NoDup_bind; [| |apply NoDup_enumerate].
      * intros [i1 v1] [i1' v1'] [[i j] w] Hx Hx' Hy Hy'.
        apply list_elem_of_singleton in Hy, Hy'.
        injection Hy as _ -> _. injection Hy' as _ -> _.
        f_equal. eapply enumerate_functional; eauto.
      * intros [i1 v1] _. apply NoDup_singleton.
Qed.

(** The edges between each defect and its companion. *)
Lemma elem_of_companions (anyons : list vref) (mid : nat)
    (F : vref -> vref -> Z) (i j : nat) (w : Z) :
  ((i, j), w) ∈ (seq 0 mid ≫= fun i =>
      match anyons !! i, anyons !! (mid + i)%nat with
      | Some vs, Some vb => [((i, (mid + i)%nat), F vs vb)]
      | _, _ => []
      end)
  <-> (i < mid)%nat /\ j = (mid + i)%nat /\ exists vs vb,
        anyons !! i = Some vs /\ anyons !! j = Some vb /\ w = F vs vb.
Proof.
  rewrite list_elem_of_bind. split.
  - intros [k [Hin Hk]]. apply elem_of_seq in Hk.
    destruct (anyons !! k) as [vs|] eqn:Hs; [|by apply elem_of_nil in Hin].
    destruct (anyons !! (mid + k)%nat) as [vb|] eqn:Hb; [|by apply elem_of_nil in Hin].
    apply list_elem_of_singleton in Hin. injection Hin as -> -> ->.
    split; [lia|]. split; [done|]. by exists vs, vb.
  - intros (Hi & -> & vs & vb & Hs & Hb & ->). exists i. split.
    + rewrite Hs, Hb. by apply list_elem_of_singleton.
    + apply elem_of_seq. lia.
Qed.

Lemma NoDup_companions (anyons : list vref) (mid : nat) (F : vref -> vref -> Z) :
  NoDup ((seq 0 mid ≫= fun i =>
      match anyons !! i, anyons !! (mid + i)%nat with
      | Some vs, Some vb => [((i, (mid + i)%nat), F vs vb)]
      | _, _ => []
      end).*1).
Proof.
  apply NoDup_fmap_fst.
  - intros [i j] w w'. rewrite !elem_of_companions.
    intros (_ & _ & a & b & ? & ? & ->) (_ & _ & a' & b' & ? & ? & ->). congruence.
  - apply NoDup_bind; [| |apply NoDup_seq].
    + intros k k' [[i j] w] _ _ Hy Hy'.
      destruct (anyons !! k), (anyons !! (mid + k)%nat);
        try (by apply elem_of_nil in Hy).
      destruct (anyons !! k'), (anyons !! (mid + k')%nat);
        try (by apply elem_of_nil in Hy').
      apply list_elem_of_singleton in Hy, Hy'. congruence.
    + intros k _. destruct (anyons !! k), (anyons !! (mid + k)%nat);
        auto using NoDup_nil_2, NoDup_singleton.
Qed.

(** The edge list of [planar.get_edges] as one expression. *)
Lemma planar_get_edges_eq (g : graph) (V : vref -> vertex) (anyons : list vref)
    (mid : nat) :
  length anyons = (2 * mid)%nat ->
  planar.get_edges g V anyons
  = Ok ((enumerate 0 (take (mid - 1) anyons) ≫= fun '(i0, v0) =>
          enumerate 0 (take (mid - S i0) (drop (S i0) anyons)) ≫= fun '(i1, v1) =>
          [((i0, i1 + i0 + 1)%nat, planar.weight (sID (V v0)) (sID (V v1)))])
        ++ (enumerate mid (take (length anyons - 1 - mid) (drop mid anyons))
            ≫= fun '(i0, v0) =>
             enumerate (i0 + 1) (drop (S i0) anyons) ≫= fun '(i1, v1) =>
             [((i0, i1), 0)])
        ++ (seq 0 mid ≫= fun i =>
             match anyons !! i, anyons !! (mid + i)%nat with
             | Some vs, Some vb =>
                 [((i, (mid + i)%nat), planar.boundary_weight (sID (V vs)) (sID (V vb)))]
             | _, _ => []
             end)).
Proof.
  intros Hlen. unfold planar.get_edges.
  replace (length anyons / 2)%nat with mid
    by (rewrite Hlen, Nat.mul_comm; symmetry; apply Nat.div_mul; lia).
  rewrite slice_upto_pred by done.
  rewrite slice_tail_but_last by lia.
  match goal with
  | |- _ = Ok ((_ ≫= ?fa) ++ (_ ≫= ?fb) ++ (_ ≫= ?fc)) =>
      rewrite (fold_left_append _ fa _ []), (fold_left_append _ fb),
        (for_each_append _ fc)
  end.
  - by rewrite app_nil_l, <- app_assoc.
  - intros i s Hi. apply elem_of_seq in Hi. unfold getitem.
    destruct (lookup_lt_is_Some_2 anyons i ltac:(lia)) as [vs ->].
    destruct (lookup_lt_is_Some_2 anyons (mid + i)%nat ltac:(lia)) as [vb ->].
    reflexivity.
  - intros [i0 v0] s _. rewrite slice_from.
    apply fold_left_append. by intros [i1 v1] s' _.
  - intros [i0 v0] s _. rewrite slice_between by lia.
    apply fold_left_append. by intros [i1 v1] s' _.
Qed.

(** C4.  For a defect list of length [2 * mid], [planar.get_edges] returns
    exactly three classes of edges, each index pair at most once: every pair
    of real defects [i < j < mid] with weight [|dy| + |dx|] (no wrap-around),
    every pair of boundary nodes [mid <= i < j] with weight 0, and for each
    [i < mid] the pair [(i, mid + i)] whose weight is the horizontal distance
    when the companion's type is 0 (vertex) and the vertical distance
    otherwise.  A real defect has no edge to a boundary node other than
    its own companion. *)
Theorem planar_get_edges_three_classes (g : graph) (V : vref -> vertex)
    (anyons : list vref) (mid : nat) :
  length anyons = (2 * mid)%nat ->
  exists edges,
    planar.get_edges g V anyons = Ok edges /\
    NoDup (edges.*1) /\
    (forall i j w, ((i, j), w) ∈ edges <->
       ((i < j < mid)%nat /\ exists v0 v1,
          anyons !! i = Some v0 /\ anyons !! j = Some v1 /\
          w = Z.abs (sid_y (sID (V v0)) - sid_y (sID (V v1)))
              + Z.abs (sid_x (sID (V v0)) - sid_x (sID (V v1))))
       \/ ((mid <= i < j)%nat /\ (j < 2 * mid)%nat /\ w = 0)
       \/ ((i < mid)%nat /\ j = (mid + i)%nat /\ exists vs vb,
          anyons !! i = Some vs /\ anyons !! j = Some vb /\
          w = if sid_type (sID (V vb)) =? 0
              then Z.abs (sid_x (sID (V vb)) - sid_x (sID (V vs)))
              else Z.abs (sid_y (sID (V vb)) - sid_y (sID (V vs))))) /\
    (forall i j w, ((i, j), w) ∈ edges -> (i < mid)%nat -> (mid <= j)%nat ->
       j = (mid + i)%nat).
Proof.
  intros Hlen.
  assert (Hchar : forall i j w,
    ((i, j), w) ∈ ((enumerate 0 (take (mid - 1) anyons) ≫= fun '(i0, v0) =>
          enumerate 0 (take (mid - S i0) (drop (S i0) anyons)) ≫= fun '(i1, v1) =>
          [((i0, i1 + i0 + 1)%nat, planar.weight (sID (V v0)) (sID (V v1)))])
        ++ (enumerate mid (take (length anyons - 1 - mid) (drop mid anyons))
            ≫= fun '(i0, v0) =>
             enumerate (i0 + 1) (drop (S i0) anyons) ≫= fun '(i1, v1) =>
             [((i0, i1), 0)])
        ++ (seq 0 mid ≫= fun i =>
             match anyons !! i, anyons !! (mid + i)%nat with
             | Some vs, Some vb =>
                 [((i, (mid + i)%nat), planar.boundary_weight (sID (V vs)) (sID (V vb)))]
             | _, _ => []
             end)) <->
       ((i < j < mid)%nat /\ exists v0 v1,
          anyons !! i = Some v0 /\ anyons !! j = Some v1 /\
          w = planar.weight (sID (V v0)) (sID (V v1)))
       \/ ((mid <= i < j)%nat /\ (j < 2 * mid)%nat /\ w = 0)
       \/ ((i < mid)%nat /\ j = (mid + i)%nat /\ exists vs vb,
          anyons !! i = Some vs /\ anyons !! j = Some vb /\
          w = planar.boundary_weight (sID (V vs)) (sID (V vb)))).
  { intros i j w. rewrite !elem_of_app.
    rewrite (elem_of_pairs_below anyons mid) by lia.
    rewrite elem_of_virtual_pairs by lia.
    rewrite elem_of_companions. rewrite Hlen. tauto. }
  assert (Hw : forall s0 s1, planar.weight s0 s1
      = Z.abs (sid_y s0 - sid_y s1) + Z.abs (sid_x s0 - sid_x s1))
    by (by intros [[? ?] ?] [[? ?] ?]).
  assert (Hb : forall ss sb, planar.boundary_weight ss sb
      = if sid_type sb =? 0 then Z.abs (sid_x sb - sid_x ss)
        else Z.abs (sid_y sb - sid_y ss))
    by (by intros [[? ?] ?] [[? ?] ?]).
  eexists. split; [by apply planar_get_edges_eq|]. split; [|split].
  - rewrite !fmap_app. apply NoDup_app. split; [|split].
    + apply NoDup_pairs_below. lia.
    + intros [i j] Hin Hin'.
      apply list_elem_of_fmap in Hin as [[[a b] w] [Heq Hin]].
      simpl in Heq. injection Heq as -> ->.
      apply (elem_of_pairs_below anyons mid) in Hin as [? _]; [|lia].
      apply elem_of_app in Hin' as [Hin'|Hin'];
        apply list_elem_of_fmap in Hin' as [[[a' b'] w'] [Heq' Hin']];
        simpl in Heq'; injection Heq' as -> ->.
      * apply elem_of_virtual_pairs in Hin'; lia.
      * apply elem_of_companions in Hin'. lia.
    + apply NoDup_app. split; [|split].
      * apply NoDup_virtual_pairs. lia.
      * intros [i j] Hin Hin'.
        apply list_elem_of_fmap in Hin as [[[a b] w] [Heq Hin]].
        apply list_elem_of_fmap in Hin' as [[[a' b'] w'] [Heq' Hin']].
        simpl in Heq, Heq'. injection Heq as -> ->. injection Heq' as -> ->.
        apply elem_of_virtual_pairs in Hin; [|lia].
        apply elem_of_companions in Hin'. lia.
      * apply NoDup_companions.
  - intros i j w. rewrite Hchar. setoid_rewrite Hw. setoid_rewrite Hb. reflexivity.
  - intros i j w Hin Hi Hj. apply Hchar in Hin as [[? _]|[[? _]|(_ & ? & _)]]; lia.
Qed.

(** * Defect extraction *)

Lemma toric_get_stabs_loop (V : vref -> vertex) (xs verts plaqs : list vref) :
  fold_left
    (fun (acc : list vref * list vref) (stab : vref) =>
       let '(verts, plaqs) := acc in
       if stab_state (V stab)
       then (if sid_type (sID (V stab)) =? 0
             then (verts ++ [stab], plaqs)
             else (verts, plaqs ++ [stab]))
       else (verts, plaqs))
    xs (verts, plaqs)
  = (verts ++ filter (fun v => stab_state (V v) = true /\ sid_type (sID (V v)) = 0) xs,
     plaqs ++ filter (fun v => stab_state (V v) = true /\ sid_type (sID (V v)) <> 0) xs).
Proof.
  revert verts plaqs. induction xs as [|x xs IH]; intros verts plaqs; simpl.
  - by rewrite !app_nil_r.
  - rewrite !filter_cons.
    destruct (stab_state (V x)) eqn:Hst.
    + destruct (Z.eqb_spec (sid_type (sID (V x))) 0) as [Ht|Ht].
      * rewrite IH, decide_True, decide_False by tauto. by rewrite <- app_assoc.
      * rewrite IH, decide_False, decide_True by tauto. by rewrite <- app_assoc.
    + rewrite IH, !decide_False by (intros [? _]; done). done.
Qed.

Lemma planar_get_stabs_loop (g : graph) (V : vref -> vertex)
    (xs verts plaqs tv tp : list vref) :
  let n := graph_size g in
  (forall v, v ∈ xs -> stab_state (V v) = true ->
     is_Some (graph_B g !!
       (if sid_type (sID (V v)) =? 0
        then (0, sid_y (sID (V v)), if 2 * sid_x (sID (V v)) <? n then 0 else n)
        else (sid_type (sID (V v)),
              if 2 * sid_y (sID (V v)) <? n then -1 else n - 1,
              sid_x (sID (V v)))))) ->
  exists bv bp,
    for_each
      (fun (stab : vref) (acc : list vref * list vref * list vref * list vref) =>
         let '(verts, plaqs, tv, tp) := acc in
         let '(type, y, x) := sID (V stab) in
         if stab_state (V stab)
         then (if type =? 0
               then
                 b ← (if 2 * x <? graph_size g
                      then B_getitem g (type, y, 0)
                      else B_getitem g (type, y, graph_size g));
                 Ok (verts ++ [stab], plaqs, tv ++ [b], tp)
               else
                 b ← (if 2 * y <? graph_size g
                      then B_getitem g (type, -1, x)
                      else B_getitem g (type, graph_size g - 1, x));
                 Ok (verts, plaqs ++ [stab], tv, tp ++ [b]))
         else Ok acc)
      xs (verts, plaqs, tv, tp)
    = Ok (verts ++ filter (fun v => stab_state (V v) = true /\ sid_type (sID (V v)) = 0) xs,
          plaqs ++ filter (fun v => stab_state (V v) = true /\ sid_type (sID (V v)) <> 0) xs,
          tv ++ bv, tp ++ bp) /\
    Forall2 (fun v b => graph_B g !!
               (0, sid_y (sID (V v)), if 2 * sid_x (sID (V v)) <? n then 0 else n)
             = Some b)
      (filter (fun v => stab_state (V v) = true /\ sid_type (sID (V v)) = 0) xs) bv /\
    Forall2 (fun v b => graph_B g !!
               (sid_type (sID (V v)),
                if 2 * sid_y (sID (V v)) <? n then -1 else n - 1,
                sid_x (sID (V v)))
             = Some b)
      (filter (fun v => stab_state (V v) = true /\ sid_type (sID (V v)) <> 0) xs) bp.
Proof.
  intros n. revert verts plaqs tv tp.
  induction xs as [|x xs IH]; intros verts plaqs tv tp HB.
  - exists [], []. simpl. rewrite !app_nil_r. repeat split; constructor.
  - assert (HB' : forall v, v ∈ xs -> stab_state (V v) = true ->
      is_Some (graph_B g !!
       (if sid_type (sID (V v)) =? 0
        then (0, sid_y (sID (V v)), if 2 * sid_x (sID (V v)) <? n then 0 else n)
        else (sid_type (sID (V v)),
              if 2 * sid_y (sID (V v)) <? n then -1 else n - 1,
              sid_x (sID (V v))))))
      by (intros v Hv; apply HB; by right).
    specialize (HB x (list_elem_of_here _ _)).
    cbn [for_each]. rewrite !filter_cons.
    destruct (sID (V x)) as [[t y] x0] eqn:Hsid.
    change (sid_type (t, y, x0)) with t in *.
    change (sid_y (t, y, x0)) with y in *.
    change (sid_x (t, y, x0)) with x0 in *.
    destruct (stab_state (V x)) eqn:Hst.
    + destruct (HB eq_refl) as [b Hb]. clear HB.
      destruct (Z.eqb_spec t 0) as [->|Ht].
      * rewrite decide_True, decide_False by tauto.
        assert (Hget : (if 2 * x0 <? graph_size g
                        then B_getitem g (0, y, 0)
                        else B_getitem g (0, y, graph_size g)) = Ok b).
        { unfold B_getitem. fold n. destruct (2 * x0 <? n); by rewrite Hb. }
        rewrite Hget. simpl.
        destruct (IH (verts ++ [x]) plaqs (tv ++ [b]) tp HB') as (bv & bp & Heq & Hv & Hp).
        exists (b :: bv), bp. rewrite Heq, <- !app_assoc. split; [done|].
        split; [|done]. constructor; [|done]. by rewrite Hsid.
      * rewrite decide_False, decide_True by tauto.
        assert (Hget : (if 2 * y <? graph_size g
                        then B_getitem g (t, -1, x0)
                        else B_getitem g (t, graph_size g - 1, x0)) = Ok b).
        { unfold B_getitem. fold n. destruct (2 * y <? n); by rewrite Hb. }
        rewrite Hget. simpl.
        destruct (IH verts (plaqs ++ [x]) tv (tp ++ [b]) HB') as (bv & bp & Heq & Hv & Hp).
        exists bv, (b :: bp). rewrite Heq, <- !app_assoc. split; [done|].
        split; [done|]. constructor; [|done]. by rewrite Hsid.
    + rewrite !decide_False by (intros [? _]; done). simpl. by apply IH.
Qed.

Lemma for_each_ext {A St : Type} (body1 body2 : A -> St -> res St)
    (xs : list A) (s : St) :
  (forall x s, body1 x s = body2 x s) ->
  for_each body1 xs s = for_each body2 xs s.
Proof.
  intros Hb. revert s. induction xs as [|x xs IH]; intros s; [done|].
  simpl. rewrite Hb. destruct (body2 x s); [apply IH|done].
Qed.

(** Integers of at most 53 bits are doubles. *)
Lemma round53_exact (s : Z) : Z.abs s <= 2 ^ 53 -> round53 s = s.
Proof.
  intros Hs. unfold round53. cbv zeta.
  destruct (Z.eq_dec (Z.abs s) (2 ^ 53)) as [He|Hne].
  - assert (s = 2 ^ 53 \/ s = - 2 ^ 53) as [-> | ->] by lia; vm_compute; reflexivity.
  - assert (Hlog : Z.log2 (Z.abs s) < 53).
    { destruct (Z.eq_dec (Z.abs s) 0) as [->|Hz]; [done|].
      apply Z.log2_lt_pow2; lia. }
    destruct (Z.leb_spec (Z.log2 (Z.abs s) - 52) 0); [done|lia].
Qed.

(** Up to size 2^53 the test [x < size/2] is the exact one. *)
Lemma lt_half_exact (x size : Z) :
  Z.abs size <= 2 ^ 53 -> lt_half x size = Ok (2 * x <? size).
Proof.
  intros Hs. unfold lt_half. cbv zeta. rewrite round53_exact by done.
  assert (Hp : 2 ^ 53 < 2 ^ 1025) by (apply Z.pow_lt_mono_r; lia).
  destruct (Z.leb_spec (2 ^ 1025) (Z.abs size)); [|done].
  exfalso. revert Hs Hp H. generalize (2 ^ 53) (2 ^ 1025) (Z.abs size). lia.
Qed.

Lemma planar_get_stabs_exact (g : graph) (V : vref -> vertex) :
  Z.abs (graph_size g) <= 2 ^ 53 ->
  planar.get_stabs g V
  = (acc ← for_each
      (fun (stab : vref) (acc : list vref * list vref * list vref * list vref) =>
         let '(verts, plaqs, tv, tp) := acc in
         let '(type, y, x) := sID (V stab) in
         if stab_state (V stab)
         then (if type =? 0
               then
                 b ← (if 2 * x <? graph_size g
                      then B_getitem g (type, y, 0)
                      else B_getitem g (type, y, graph_size g));
                 Ok (verts ++ [stab], plaqs, tv ++ [b], tp)
               else
                 b ← (if 2 * y <? graph_size g
                      then B_getitem g (type, -1, x)
                      else B_getitem g (type, graph_size g - 1, x));
                 Ok (verts, plaqs ++ [stab], tv, tp ++ [b]))
         else Ok acc)
      (S_values g) ([], [], [], []);
     let '(verts, plaqs, tv, tp) := acc in
     Ok (verts ++ tv, plaqs ++ tp)).
Proof.
  intros Hn. unfold planar.get_stabs.
  erewrite for_each_ext; [reflexivity|].
  intros x [[[verts plaqs] tv] tp]. cbv beta iota.
  destruct (sID (V x)) as [[t y] x0].
  destruct (stab_state (V x)); [|done].
  destruct (t =? 0); by rewrite lt_half_exact.
Qed.


(** * Boundary filter *)

Lemma remove_virtual_loop (V : vref -> vertex) (m acc : list (vref * vref)) :
  fold_left
    (fun (matching : list (vref * vref)) '(V1, V2) =>
       if negb (bool_decide (py_type (V V1) = iBoundary)
                && bool_decide (py_type (V V2) = iBoundary))
       then matching ++ [(V1, V2)]
       else matching)
    m acc
  = acc ++ filter (fun p => ~ (py_type (V p.1) = iBoundary /\ py_type (V p.2) = iBoundary)) m.
Proof.
  revert acc. induction m as [|[a b] m IH]; intros acc; simpl.
  - by rewrite app_nil_r.
  - rewrite IH, filter_cons. simpl.
    destruct (decide (py_type (V a) = iBoundary)) as [Ha|Ha];
      destruct (decide (py_type (V b) = iBoundary)) as [Hb|Hb].
    + rewrite !bool_decide_eq_true_2 by done. simpl.
      by rewrite decide_False by tauto.
    + rewrite bool_decide_eq_true_2, bool_decide_eq_false_2 by done. simpl.
      rewrite decide_True by tauto. by rewrite <- app_assoc.
    + rewrite bool_decide_eq_false_2 by done. simpl.
      rewrite decide_True by tauto. by rewrite <- app_assoc.
    + rewrite bool_decide_eq_false_2 by done. simpl.
      rewrite decide_True by tauto. by rewrite <- app_assoc.
Qed.

(** C6.  After [planar.remove_virtual] the matching holds no pair of two
    boundary nodes, and every other pair of the input is kept, unchanged and
    in its order; nothing else of the decoder changes. *)
Theorem remove_virtual_drops_virtual_pairs (w : world) :
  let virtual v := py_type (w_V w v) = iBoundary in
  let w' := planar.remove_virtual w in
  w_matching w' = filter (fun p => ~ (virtual p.1 /\ virtual p.2)) (w_matching w) /\
  (forall v1 v2, (v1, v2) ∈ w_matching w' -> ~ (virtual v1 /\ virtual v2)) /\
  (forall v1 v2, (v1, v2) ∈ w_matching w -> ~ (virtual v1 /\ virtual v2) ->
     (v1, v2) ∈ w_matching w') /\
  w_matching w' `sublist_of` w_matching w /\
  w_graph w' = w_graph w /\ w_V w' = w_V w /\ w_E w' = w_E w.
Proof.
  intros virtual w'.
  assert (Heq : w_matching w'
    = filter (fun p => ~ (virtual p.1 /\ virtual p.2)) (w_matching w)).
  { unfold w', planar.remove_virtual. simpl. by rewrite remove_virtual_loop. }
  split; [done|]. rewrite Heq. split; [|split; [|split]].
  - intros v1 v2 Hin. by apply list_elem_of_filter in Hin as [? _].
  - intros v1 v2 Hin Hnv. by apply list_elem_of_filter.
  - apply sublist_filter.
  - done.
Qed.

(** * The correction walker *)

Lemma flip_edge_frame (e : eref) (w : world) :
  w_graph (flip_edge e w) = w_graph w /\
  w_V (flip_edge e w) = w_V w /\
  w_matching (flip_edge e w) = w_matching w.
Proof. done. Qed.

Lemma flip_all_frame (t : list eref) (w : world) :
  w_graph (flip_all t w) = w_graph w /\
  w_V (flip_all t w) = w_V w /\
  w_matching (flip_all t w) = w_matching w.
Proof.
  revert w. induction t as [|e t IH]; intros w; [done|].
  apply (IH (flip_edge e w)).
Qed.

Lemma flip_all_app (t t' : list eref) (w : world) :
  flip_all (t ++ t') w = flip_all t' (flip_all t w).
Proof. apply fold_left_app. Qed.

Lemma visits_cons (e e0 : eref) (t : list eref) :
  visits e (e0 :: t) = ((if decide (e0 = e) then 1 else 0) + visits e t)%nat.
Proof. unfold visits. rewrite filter_cons. by destruct (decide (e0 = e)). Qed.

Lemma visits_0 (e : eref) (t : list eref) : e ∉ t <-> visits e t = 0%nat.
Proof.
  induction t as [|e0 t IH].
  - split; [done|]. intros _. apply not_elem_of_nil.
  - rewrite visits_cons, not_elem_of_cons. destruct (decide (e0 = e)).
    + split; [intros [? _]; congruence|lia].
    + rewrite IH. split; [intros [_ ?]; lia|]. intros. split; [congruence|lia].
Qed.

(** Every visit flips both flags of an edge. *)
Lemma flip_all_edge (t : list eref) (w : world) (e : eref) :
  edge_state (w_E (flip_all t w) e)
  = xorb (edge_state (w_E w e)) (Nat.odd (visits e t)) /\
  edge_matching (w_E (flip_all t w) e)
  = xorb (edge_matching (w_E w e)) (Nat.odd (visits e t)).
Proof.
  revert w. induction t as [|e0 t IH]; intros w.
  - simpl. by rewrite !xorb_false_r.
  - change (flip_all (e0 :: t) w) with (flip_all t (flip_edge e0 w)).
    destruct (IH (flip_edge e0 w)) as [-> ->]. rewrite visits_cons. simpl.
    destruct (decide (e = e0)) as [->|Hne].
    + rewrite decide_True by done. simpl. rewrite Nat.odd_succ, <- Nat.negb_odd.
      split; [by destruct (edge_state (w_E w e0)), (Nat.odd (visits e0 t))
             |by destruct (edge_matching (w_E w e0)), (Nat.odd (visits e0 t))].
    + by rewrite decide_False by done.
Qed.

Lemma flip_all_untouched (t : list eref) (w : world) (e : eref) :
  e ∉ t -> w_E (flip_all t w) e = w_E w e.
Proof.
  revert w. induction t as [|e0 t IH]; intros w Hnin; [done|].
  apply not_elem_of_cons in Hnin as [Hne Hnin].
  change (flip_all (e0 :: t) w) with (flip_all t (flip_edge e0 w)).
  rewrite IH by done. simpl. by rewrite decide_False.
Qed.

(** The walker flips exactly along its trace. *)
Lemma walk_trace_spec (dir : direction) (n : nat) (v : vref) (w : world) :
  walk dir n v w
  = (flip_all (walk_trace (w_V w) dir n v).1 w, (walk_trace (w_V w) dir n v).2).
Proof.
  revert v w. induction n as [|n IH]; intros v w; [done|].
  simpl. destruct (neighbors (w_V w v) dir) as [[v' e]|]; [|done].
  rewrite IH. simpl. by destruct (walk_trace (w_V w) dir n v').
Qed.

Lemma apply_pair_trace_spec (p : vref * vref) (w : world) :
  apply_pair p w
  = (flip_all (pair_trace (w_graph w) (w_V w) p).1 w,
     (pair_trace (w_graph w) (w_V w) p).2).
Proof.
  destruct p as [v0 v1]. unfold apply_pair, pair_trace.
  destruct (route _ _ _) as [[[[dy yd] dx] xd]|]; [|done].
  rewrite walk_trace_spec.
  destruct (walk_trace (w_V w) yd (range_len dy) v0) as [t0 [e|]]; [done|].
  cbn [fst snd]. rewrite walk_trace_spec.
  destruct (flip_all_frame t0 w) as (_ & -> & _).
  destruct (walk_trace (w_V w) xd (range_len dx) v1) as [t1 r]. simpl.
  by rewrite flip_all_app.
Qed.

Lemma apply_pairs_trace_spec (m : list (vref * vref)) (w : world) :
  apply_pairs m w
  = (flip_all (pairs_trace (w_graph w) (w_V w) m).1 w,
     (pairs_trace (w_graph w) (w_V w) m).2).
Proof.
  revert w. induction m as [|p m IH]; intros w; [done|].
  simpl. rewrite apply_pair_trace_spec.
  destruct (pair_trace (w_graph w) (w_V w) p) as [t [e|]]; [done|].
  cbn [fst snd]. rewrite IH.
  destruct (flip_all_frame t w) as (-> & -> & _).
  destruct (pairs_trace (w_graph w) (w_V w) m) as [t' r]. simpl.
  by rewrite flip_all_app.
Qed.

Lemma apply_matching_trace_spec (w : world) :
  apply_matching w = (flip_all (matching_trace w).1 w, (matching_trace w).2).
Proof. apply apply_pairs_trace_spec. Qed.

Lemma matching_trace_flip_all (t : list eref) (w : world) :
  matching_trace (flip_all t w) = matching_trace w.
Proof.
  unfold matching_trace. by destruct (flip_all_frame t w) as (-> & -> & ->).
Qed.

(** C7.  Running [apply_matching] twice with the same matching walks the
    same edges both times and leaves the error state (and the mark) of every
    edge as it was before the first run. *)
Theorem apply_matching_twice_restores (w : world) :
  let w1 := (apply_matching w).1 in
  let w2 := (apply_matching w1).1 in
  w_matching w1 = w_matching w /\
  matching_trace w1 = matching_trace w /\
  (apply_matching w1).2 = (apply_matching w).2 /\
  forall e, edge_state (w_E w2 e) = edge_state (w_E w e) /\
            edge_matching (w_E w2 e) = edge_matching (w_E w e).
Proof.
  intros w1 w2. unfold w2, w1. rewrite !apply_matching_trace_spec. cbn [fst snd].
  rewrite !matching_trace_flip_all.
  split; [apply flip_all_frame|]. split; [done|]. split; [done|].
  intros e.
  destruct (flip_all_edge (matching_trace w).1 (flip_all (matching_trace w).1 w) e)
    as [-> ->].
  destruct (flip_all_edge (matching_trace w).1 w e) as [-> ->].
  split; [by destruct (edge_state (w_E w e)), (Nat.odd _)
         |by destruct (edge_matching (w_E w e)), (Nat.odd _)].
Qed.

(** C8, as the code has it.  Each traversal toggles the mark of the edge
    along with its error state: after one run of [apply_matching] the mark of
    an edge is its earlier value xor the parity of the number of times the
    walks traversed it. *)
Theorem apply_matching_mark_parity (w : world) (e : eref) :
  let w' := (apply_matching w).1 in
  let k := visits e (matching_trace w).1 in
  edge_matching (w_E w' e) = xorb (edge_matching (w_E w e)) (Nat.odd k) /\
  edge_state (w_E w' e) = xorb (edge_state (w_E w e)) (Nat.odd k) /\
  (e ∈ (matching_trace w).1 <-> k <> 0%nat).
Proof.
  intros w' k. unfold w'. rewrite apply_matching_trace_spec. cbn [fst].
  destruct (flip_all_edge (matching_trace w).1 w e) as [-> ->].
  split; [done|]. split; [done|].
  unfold k. pose proof (visits_0 e (matching_trace w).1) as H0.
  destruct (decide (e ∈ (matching_trace w).1)); tauto.
Qed.

(** C10.  [apply_matching] changes nothing but the flags of the edges on
    the walked paths: the lattice, every stabilizer and the matching are the
    same afterwards, and so are both flags of every edge no walk
    traversed. *)
Theorem apply_matching_frame (w : world) :
  let w' := (apply_matching w).1 in
  w_graph w' = w_graph w /\
  w_V w' = w_V w /\
  w_matching w' = w_matching w /\
  forall e, e ∉ (matching_trace w).1 -> w_E w' e = w_E w e.
Proof.
  intros w'. unfold w'. rewrite apply_matching_trace_spec. cbn [fst].
  destruct (flip_all_frame (matching_trace w).1 w) as (-> & -> & ->).
  repeat split. intros e. apply flip_all_untouched.
Qed.

(** * Route selection *)

Lemma deltas_toric (g : graph) (s0 s1 : sID_t) :
  graph_type g = "toric" -> graph_size g <> 0 ->
  deltas g s0 s1
  = Ok ((sid_y s0 - sid_y s1) mod graph_size g,
        (sid_x s0 - sid_x s1) mod graph_size g,
        (sid_y s1 - sid_y s0) mod graph_size g,
        (sid_x s1 - sid_x s0) mod graph_size g).
Proof.
  intros Ht Hn. destruct s0 as [[t0 y0] x0], s1 as [[t1 y1] x1].
  unfold deltas, py_mod. rewrite Ht. simpl.
  destruct (Z.eqb_spec (graph_size g) 0); [done|]. reflexivity.
Qed.

Lemma deltas_planar (g : graph) (s0 s1 : sID_t) :
  graph_type g = "planar" ->
  deltas g s0 s1
  = Ok (sid_y s0 - sid_y s1, sid_x s0 - sid_x s1,
        sid_y s1 - sid_y s0, sid_x s1 - sid_x s0).
Proof.
  intros Ht. destruct s0 as [[t0 y0] x0], s1 as [[t1 y1] x1].
  unfold deltas. rewrite Ht. reflexivity.
Qed.

Lemma closest_path_policy (dy0 dx0 dy1 dx1 : Z) :
  exists dy yd dx xd,
    closest_path (dy0, dx0, dy1, dx1) = (dy, yd, dx, xd) /\
    (yd = Dir_u <-> dy0 < dy1) /\ (yd = Dir_d <-> dy1 <= dy0) /\
    (xd = Dir_r <-> dx0 < dx1) /\ (xd = Dir_l <-> dx1 <= dx0) /\
    dy = Z.min dy0 dy1 /\ dx = Z.min dx0 dx1.
Proof.
  unfold closest_path.
  destruct (Z.ltb_spec dy0 dy1), (Z.ltb_spec dx0 dx1);
    eexists _, _, _, _; (split; [reflexivity|]);
    repeat split; try done; try lia.
Qed.

(** C9.  In both geometries the walker goes "u" exactly when [dy0 < dy1]
    and "d" otherwise, "r" exactly when [dx0 < dx1] and "l" otherwise, so
    equal deltas resolve to "d" and "l"; the step counts are the smaller of
    each pair. *)
Theorem walker_direction_policy (g : graph) (s0 s1 : sID_t) :
  let n := graph_size g in
  (graph_type g = "toric" /\ n <> 0) \/ graph_type g = "planar" ->
  exists dy0 dx0 dy1 dx1,
    deltas g s0 s1 = Ok (dy0, dx0, dy1, dx1) /\
    (graph_type g = "toric" ->
       dy0 = (sid_y s0 - sid_y s1) mod n /\ dx0 = (sid_x s0 - sid_x s1) mod n /\
       dy1 = (sid_y s1 - sid_y s0) mod n /\ dx1 = (sid_x s1 - sid_x s0) mod n) /\
    (graph_type g = "planar" ->
       dy0 = sid_y s0 - sid_y s1 /\ dx0 = sid_x s0 - sid_x s1 /\
       dy1 = sid_y s1 - sid_y s0 /\ dx1 = sid_x s1 - sid_x s0) /\
    exists dy yd dx xd,
      route g s0 s1 = Ok (dy, yd, dx, xd) /\
      (yd = Dir_u <-> dy0 < dy1) /\ (yd = Dir_d <-> dy1 <= dy0) /\
      (xd = Dir_r <-> dx0 < dx1) /\ (xd = Dir_l <-> dx1 <= dx0) /\
      dy = Z.min dy0 dy1 /\ dx = Z.min dx0 dx1.
Proof.
  intros n [[Ht Hn]|Ht].
  - eexists _, _, _, _. split; [by apply deltas_toric|].
    split; [done|]. split; [rewrite Ht; discriminate|].
    unfold route. rewrite deltas_toric by done. cbn [mbind res_bind].
    destruct (closest_path_policy ((sid_y s0 - sid_y s1) mod n) ((sid_x s0 - sid_x s1) mod n)
                ((sid_y s1 - sid_y s0) mod n) ((sid_x s1 - sid_x s0) mod n))
      as (dy & yd & dx & xd & Hc & H).
    exists dy, yd, dx, xd. fold n. by rewrite Hc.
  - eexists _, _, _, _. split; [by apply deltas_planar|].
    split; [rewrite Ht; discriminate|]. split; [done|].
    unfold route. rewrite deltas_planar by done. cbn [mbind res_bind].
    destruct (closest_path_policy (sid_y s0 - sid_y s1) (sid_x s0 - sid_x s1)
                (sid_y s1 - sid_y s0) (sid_x s1 - sid_x s0))
      as (dy & yd & dx & xd & Hc & H).
    exists dy, yd, dx, xd. by rewrite Hc.
Qed.

(** * Path length *)

Lemma walk_trace_linked (V : vref -> vertex) (dir : direction) (n : nat) (v : vref) :
  (forall v dir, is_Some (neighbors (V v) dir)) ->
  exists t, walk_trace V dir n v = (t, None) /\ length t = n.
Proof.
  intros Hl. revert v. induction n as [|n IH]; intros v.
  - by exists [].
  - simpl. destruct (Hl v dir) as [[v' e] ->].
    destruct (IH v') as (t & -> & Hlen). exists (e :: t). simpl. by rewrite Hlen.
Qed.

Lemma min_mod_opp (n a : Z) :
  0 < n -> Z.min (a mod n) ((- a) mod n) = Z.min (a mod n) (n - a mod n).
Proof.
  intros Hn. pose proof (Z.mod_pos_bound a n Hn).
  destruct (Z.eq_dec (a mod n) 0) as [H0|H0].
  - rewrite Z.mod_opp_l_z by lia. lia.
  - rewrite Z.mod_opp_l_nz by lia. lia.
Qed.

(** On a fully linked periodic lattice the walk of a matched pair
    traverses [dy + dx] edges, the weight [toric.get_edges] gives the pair. *)
Theorem toric_path_length (g : graph) (V : vref -> vertex) (v0 v1 : vref) :
  graph_type g = "toric" -> 0 < graph_size g ->
  (forall v dir, is_Some (neighbors (V v) dir)) ->
  exists dy yd dx xd t,
    route g (sID (V v0)) (sID (V v1)) = Ok (dy, yd, dx, xd) /\
    pair_trace g V (v0, v1) = (t, None) /\
    Z.of_nat (length t) = dy + dx /\
    toric.weight (graph_size g) (sID (V v0)) (sID (V v1)) = Ok (dy + dx).
Proof.
  intros Ht Hn Hl. set (n := graph_size g) in *.
  set (s0 := sID (V v0)). set (s1 := sID (V v1)).
  destruct (closest_path_policy ((sid_y s0 - sid_y s1) mod n) ((sid_x s0 - sid_x s1) mod n)
              ((sid_y s1 - sid_y s0) mod n) ((sid_x s1 - sid_x s0) mod n))
    as (dy & yd & dx & xd & Hc & _ & _ & _ & _ & Hdy & Hdx).
  assert (Hr : route g s0 s1 = Ok (dy, yd, dx, xd)).
  { unfold route. rewrite deltas_toric by (done || lia). cbn [mbind res_bind]. fold n. by rewrite Hc. }
  pose proof (Z.mod_pos_bound (sid_y s0 - sid_y s1) n Hn).
  pose proof (Z.mod_pos_bound (sid_y s1 - sid_y s0) n Hn).
  pose proof (Z.mod_pos_bound (sid_x s0 - sid_x s1) n Hn).
  pose proof (Z.mod_pos_bound (sid_x s1 - sid_x s0) n Hn).
  destruct (walk_trace_linked V yd (range_len dy) v0 Hl) as (t0 & Ht0 & Hlen0).
  destruct (walk_trace_linked V xd (range_len dx) v1 Hl) as (t1 & Ht1 & Hlen1).
  exists dy, yd, dx, xd, (t0 ++ t1). split; [done|]. split; [|split].
  - unfold pair_trace. fold s0 s1. rewrite Hr, Ht0, Ht1. done.
  - rewrite length_app, Hlen0, Hlen1. unfold range_len. lia.
  - rewrite toric_weight_ok by lia. f_equal. rewrite Hdy, Hdx.
    replace (sid_y s1 - sid_y s0) with (- (sid_y s0 - sid_y s1)) by lia.
    replace (sid_x s1 - sid_x s0) with (- (sid_x s0 - sid_x s1)) by lia.
    by rewrite !min_mod_opp.
Qed.

(** On the bounded lattice both chosen deltas are non-positive, so neither
    leg takes a step. *)
Lemma planar_pair_trace_nil (g : graph) (V : vref -> vertex) (p : vref * vref) :
  graph_type g = "planar" -> pair_trace g V p = ([], None).
Proof.
  intros Ht. destruct p as [v0 v1]. unfold pair_trace, route.
  rewrite deltas_planar by done. cbn [mbind res_bind].
  destruct (closest_path_policy (sid_y (sID (V v0)) - sid_y (sID (V v1)))
              (sid_x (sID (V v0)) - sid_x (sID (V v1)))
              (sid_y (sID (V v1)) - sid_y (sID (V v0)))
              (sid_x (sID (V v1)) - sid_x (sID (V v0))))
    as (dy & yd & dx & xd & -> & _ & _ & _ & _ & Hdy & Hdx).
  unfold range_len. rewrite !Z2Nat.nonpos by lia. done.
Qed.

Lemma planar_pairs_trace_nil (g : graph) (V : vref -> vertex) (m : list (vref * vref)) :
  graph_type g = "planar" -> pairs_trace g V m = ([], None).
Proof.
  intros Ht. induction m as [|p m IH]; [done|].
  simpl. rewrite planar_pair_trace_nil, IH by done. done.
Qed.

(** On the bounded lattice [apply_matching] traverses no edge and changes
    nothing, whatever the matching; [dy + dx] is minus the pair's weight. *)
Theorem planar_walker_never_steps (w : world) :
  graph_type (w_graph w) = "planar" ->
  matching_trace w = ([], None) /\
  apply_matching w = (w, None) /\
  forall v0 v1, (v0, v1) ∈ w_matching w ->
    exists dy yd dx xd,
      route (w_graph w) (sID (w_V w v0)) (sID (w_V w v1)) = Ok (dy, yd, dx, xd) /\
      dy + dx = - planar.weight (sID (w_V w v0)) (sID (w_V w v1)).
Proof.
  intros Ht. split; [by apply planar_pairs_trace_nil|]. split.
  - rewrite apply_matching_trace_spec. unfold matching_trace.
    by rewrite planar_pairs_trace_nil.
  - intros v0 v1 _.
    destruct (closest_path_policy (sid_y (sID (w_V w v0)) - sid_y (sID (w_V w v1)))
              (sid_x (sID (w_V w v0)) - sid_x (sID (w_V w v1)))
              (sid_y (sID (w_V w v1)) - sid_y (sID (w_V w v0)))
              (sid_x (sID (w_V w v1)) - sid_x (sID (w_V w v0))))
      as (dy & yd & dx & xd & Hc & _ & _ & _ & _ & Hdy & Hdx).
    exists dy, yd, dx, xd. split.
    + unfold route. rewrite deltas_planar by done. cbn [mbind res_bind]. by rewrite Hc.
    + destruct (sID (w_V w v0)) as [[? y0] x0], (sID (w_V w v1)) as [[? y1] x1].
      unfold planar.weight, sid_y, sid_x in *. simpl in *. lia.
Qed.

(** * Concrete runs *)

(** C1 fails on the planar lattice: with side 8 and vertex defects at
    columns 3 and 4 of row 0, [planar.get_edges] gives the pair weight 1 and
    the matching pairs the two; the walker chooses [dy = 0], [dx = -1] and
    flips no edge. *)
Theorem planar_pair_walk_example :
  let a := lattice.pl_ref 8 0 0 0 3 in
  let b := lattice.pl_ref 8 0 0 0 4 in
  let w0 := lattice.pl_world 8 [a; b] [] in
  let w := planar.remove_virtual
             (get_matching_networkx oracle.max_weight_matching planar_class w0).1 in
  let ba := lattice.pl_ref 8 1 0 0 0 in
  let bb := lattice.pl_ref 8 1 0 0 8 in
  planar.get_stabs (w_graph w0) (w_V w0) = Ok ([a; b; ba; bb], []) /\
  planar.get_edges (w_graph w0) (w_V w0) [a; b; ba; bb]
  = Ok [((0, 1)%nat, 1); ((2, 3)%nat, 0); ((0, 2)%nat, 3); ((1, 3)%nat, 4)] /\
  w_matching w = [(a, b)] /\
  route (w_graph w) (sID (w_V w a)) (sID (w_V w b)) = Ok (0, Dir_d, -1, Dir_r) /\
  matching_trace w = ([], None) /\
  (apply_matching w).2 = None /\
  forall e, w_E (apply_matching w).1 e = w_E w e.
Proof.
  intros a b w0 w ba bb.
  assert (Ht : matching_trace w = ([], None)) by (vm_compute; reflexivity).
  split; [vm_compute; reflexivity|].
  split; [vm_compute; reflexivity|].
  split; [vm_compute; reflexivity|].
  split; [vm_compute; reflexivity|].
  split; [exact Ht|].
  rewrite apply_matching_trace_spec, Ht. split; [reflexivity|].
  intros e. reflexivity.
Qed.

(** C8 fails as stated: on a periodic lattice of side 8 with clean edges,
    the pairs (column 0, column 2) and (column 1, column 3) of row 0 both
    walk over edge 2, between columns 1 and 2, and its mark is false after
    the run. *)
Lemma mark_cleared_on_shared_edge :
  let w := lattice.tor_world 8 [0; 1; 2; 3]%nat [(0, 2); (1, 3)]%nat in
  matching_trace w = ([2; 0; 4; 2]%nat, None) /\
  2%nat ∈ (matching_trace w).1 /\
  edge_matching (w_E w 2%nat) = false /\
  edge_matching (w_E (apply_matching w).1 2%nat) = false.
Proof.
  intros w.
  assert (Ht : matching_trace w = ([2; 0; 4; 2]%nat, None)) by (vm_compute; reflexivity).
  split; [exact Ht|]. rewrite Ht. split; [apply list_elem_of_here|].
  split; vm_compute; reflexivity.
Qed.


(** C2 fails: on a periodic lattice of side 4 with four vertex defects and
    two plaquette defects, [get_matching_networkx] hands its solver, for the
    plaquette partition, the graph that still holds the vertex partition's
    nodes 2 and 3 and their edges, whatever the solver; with an exact solver
    the answer indexes past the two plaquette defects and the call raises,
    where [get_matching_blossom5] returns the three pairs. *)
Theorem networkx_graph_shared_example :
  let w := lattice.tor_world 4 [0; 1; 10; 11; 21; 22]%nat [] in
  let verts := [0; 1; 10; 11]%nat in
  let plaqs := [21; 22]%nat in
  toric.get_stabs (w_graph w) (w_V w) = (verts, plaqs) /\
  (forall mwm,
     let nxg := (networkx_get_matching mwm toric_class w [] verts).1 in
     (networkx_get_matching mwm toric_class w nxg plaqs).1
     = [((0, 1)%nat, -1); ((0, 2)%nat, -4); ((0, 3)%nat, -3);
        ((1, 2)%nat, -3); ((1, 3)%nat, -4); ((2, 3)%nat, -1)]) /\
  toric.get_edges (w_graph w) (w_V w) plaqs = Ok [((0, 1)%nat, 1)] /\
  (let r := get_matching_networkx oracle.max_weight_matching toric_class w in
   (w_matching r.1, r.2)) = ([(0, 1); (10, 11)]%nat, Some IndexError) /\
  (let r := get_matching_blossom5 oracle.getMatching toric_class w in
   (w_matching r.1, r.2)) = ([(1, 0); (11, 10); (22, 21)]%nat, None).
Proof.
  intros w verts plaqs.
  split; [vm_compute; reflexivity|].
  split; [intros mwm; vm_compute; reflexivity|].
  split; [vm_compute; reflexivity|].
  split; vm_compute; reflexivity.
Qed.

(** * Instances of the conditional statements *)

Lemma toric_get_edges_torus_distance_instance :
  0 < graph_size (lattice.tor_graph 4) /\
  exists edges,
    toric.get_edges (lattice.tor_graph 4) (lattice.tor_vertex 4 [0; 2; 5]%nat)
      [0; 2; 5]%nat = Ok edges /\
    ((0, 2)%nat, 2) ∈ edges.
Proof.
  split; [done|].
  destruct (toric_get_edges_torus_distance (lattice.tor_graph 4)
              (lattice.tor_vertex 4 [0; 2; 5]%nat) [0; 2; 5]%nat ltac:(done))
    as (edges & Heq & _ & Hin & _).
  exists edges. split; [done|]. apply Hin. split; [lia|].
  exists 0%nat, 5%nat. split; [done|]. split; [done|]. reflexivity.
Defined.

Lemma planar_get_edges_three_classes_instance :
  length [14; 16; 85; 89]%nat = (2 * 2)%nat /\
  exists edges,
    planar.get_edges (lattice.pl_graph 4) (lattice.pl_vertex 4 [14; 16]%nat)
      [14; 16; 85; 89]%nat = Ok edges /\
    ((1, 3)%nat, 1) ∈ edges /\ ((2, 3)%nat, 0) ∈ edges.
Proof.
  split; [done|].
  destruct (planar_get_edges_three_classes (lattice.pl_graph 4)
              (lattice.pl_vertex 4 [14; 16]%nat) [14; 16; 85; 89]%nat 2 ltac:(done))
    as (edges & Heq & _ & Hin & _).
  exists edges. split; [done|]. split; apply Hin.
  - right. right. split; [lia|]. split; [done|].
    exists 16%nat, 89%nat. split; [done|]. split; [done|]. reflexivity.
  - right. left. lia.
Defined.

Lemma walker_direction_policy_instance :
  ((graph_type (lattice.tor_graph 4) = "toric" /\ graph_size (lattice.tor_graph 4) <> 0)
   \/ graph_type (lattice.tor_graph 4) = "planar") /\
  exists dy yd dx xd,
    route (lattice.tor_graph 4) (0, 0, 0) (0, 2, 1) = Ok (dy, yd, dx, xd) /\
    yd = Dir_d /\ xd = Dir_l.
Proof.
  assert (Hh : (graph_type (lattice.tor_graph 4) = "toric"
                /\ graph_size (lattice.tor_graph 4) <> 0)
               \/ graph_type (lattice.tor_graph 4) = "planar")
    by (left; split; [reflexivity|discriminate]).
  split; [exact Hh|].
  destruct (walker_direction_policy (lattice.tor_graph 4) (0, 0, 0) (0, 2, 1) Hh)
    as (dy0 & dx0 & dy1 & dx1 & _ & Htor & _ & dy & yd & dx & xd & Hr & _ & Hd & _ & Hl & _).
  destruct (Htor eq_refl) as (-> & -> & -> & ->).
  exists dy, yd, dx, xd.
  split; [exact Hr|].
  split; [apply Hd|apply Hl]; apply Z.leb_le; vm_compute; reflexivity.
Defined.

Lemma toric_path_length_instance :
  graph_type (lattice.tor_graph 4) = "toric" /\ 0 < graph_size (lattice.tor_graph 4) /\
  (forall v dir, is_Some (neighbors (lattice.tor_vertex 4 [] v) dir)) /\
  exists t, pair_trace (lattice.tor_graph 4) (lattice.tor_vertex 4 []) (0, 2)%nat
            = (t, None) /\ length t = 2%nat.
Proof.
  assert (Hl : forall v dir, is_Some (neighbors (lattice.tor_vertex 4 [] v) dir))
    by (intros v []; simpl; eauto).
  split; [done|]. split; [done|]. split; [done|].
  destruct (toric_path_length (lattice.tor_graph 4) (lattice.tor_vertex 4 [])
              0%nat 2%nat eq_refl ltac:(done) Hl)
    as (dy & yd & dx & xd & t & Hr & Ht & Hlen & Hw).
  exists t. split; [exact Ht|].
  assert (Hw2 : toric.weight (graph_size (lattice.tor_graph 4))
                  (sID (lattice.tor_vertex 4 [] 0%nat))
                  (sID (lattice.tor_vertex 4 [] 2%nat)) = Ok 2)
    by (vm_compute; reflexivity).
  rewrite Hw2 in Hw. injection Hw as Hw. lia.
Defined.

Lemma planar_walker_never_steps_instance :
  graph_type (w_graph (lattice.pl_world 4 [14; 16]%nat [(14, 16)]%nat)) = "planar" /\
  matching_trace (lattice.pl_world 4 [14; 16]%nat [(14, 16)]%nat) = ([], None).
Proof.
  split; [done|].
  apply (planar_walker_never_steps (lattice.pl_world 4 [14; 16]%nat [(14, 16)]%nat) eq_refl).
Defined.


(** * Further properties of the edge weights *)

Lemma enumerate_cons {A : Type} (s : nat) (x : A) (xs : list A) :
  enumerate s (x :: xs) = (s, x) :: enumerate (S s) xs.
Proof. reflexivity. Qed.

Lemma for_each_cons_raise {A St : Type} (body : A -> St -> res St)
    (x : A) (xs : list A) (s : St) (e : exn) :
  body x s = Raise e -> for_each body (x :: xs) s = Raise e.
Proof. intros H. simpl. by rewrite H. Qed.

(** With fewer than two defects [toric.get_edges] returns the empty edge
    list whatever the lattice size, also 0; with two or more on a lattice of
    size 0 the first weight raises. *)
Theorem toric_get_edges_degenerate (g : graph) (V : vref -> vertex)
    (anyons : list vref) :
  ((length anyons < 2)%nat -> toric.get_edges g V anyons = Ok []) /\
  ((2 <= length anyons)%nat -> graph_size g = 0 ->
   toric.get_edges g V anyons = Raise ZeroDivisionError).
Proof.
  split.
  - intros Hlen. unfold toric.get_edges. rewrite slice_drop_last.
    replace (length anyons - 1)%nat with 0%nat by lia. by rewrite take_0.
  - intros Hlen Hn. destruct anyons as [|a [|b rest]]; simpl in Hlen; try lia.
    unfold toric.get_edges. rewrite slice_drop_last.
    change (take (length (a :: b :: rest) - 1) (a :: b :: rest))
      with (a :: take (length rest) (b :: rest)).
    rewrite enumerate_cons. apply for_each_cons_raise.
    rewrite slice_from. cbn [drop].
    rewrite enumerate_cons. apply for_each_cons_raise.
    rewrite Hn. destruct (sID (V a)) as [[? ?] ?], (sID (V b)) as [[? ?] ?].
    reflexivity.
Qed.

Lemma ring_distance_triangle (n a b c dab dbc dac : Z) :
  ring_distance n a b dab -> ring_distance n b c dbc -> ring_distance n a c dac ->
  dac <= dab + dbc.
Proof.
  intros [[k1 ->] _] [[k2 ->] _] [_ Hmin].
  specialize (Hmin (k1 + k2)). lia.
Qed.

Lemma ring_distance_zero (n a b : Z) :
  0 < n ->
  (Z.min ((a - b) mod n) (n - (a - b) mod n) = 0 <-> (a - b) mod n = 0).
Proof. intros Hn. pose proof (Z.mod_pos_bound (a - b) n Hn). lia. Qed.

(** On a lattice of size [n > 0] the toric weight is a distance between
    sites: it lies between 0 and [n], it is 0 exactly for two defects at the
    same row and column modulo [n], and it obeys the triangle inequality. *)
Theorem toric_weight_metric (n : Z) (a b c : sID_t) :
  0 < n ->
  exists wab wbc wac,
    toric.weight n a b = Ok wab /\
    toric.weight n b c = Ok wbc /\
    toric.weight n a c = Ok wac /\
    0 <= wab <= n /\
    (wab = 0 <-> (sid_y a - sid_y b) mod n = 0 /\ (sid_x a - sid_x b) mod n = 0) /\
    wac <= wab + wbc.
Proof.
  intros Hn. eexists _, _, _.
  split; [apply toric_weight_ok; lia|].
  split; [apply toric_weight_ok; lia|].
  split; [apply toric_weight_ok; lia|].
  pose proof (Z.mod_pos_bound (sid_y a - sid_y b) n Hn).
  pose proof (Z.mod_pos_bound (sid_x a - sid_x b) n Hn).
  split; [lia|]. split; [lia|].
  pose proof (ring_distance_triangle n (sid_y a) (sid_y b) (sid_y c) _ _ _
                (ring_distance_min n _ _ Hn) (ring_distance_min n _ _ Hn)
                (ring_distance_min n _ _ Hn)).
  pose proof (ring_distance_triangle n (sid_x a) (sid_x b) (sid_x c) _ _ _
                (ring_distance_min n _ _ Hn) (ring_distance_min n _ _ Hn)
                (ring_distance_min n _ _ Hn)).
  lia.
Qed.

(** * Planar edges of any node list *)

Lemma slice_upto_half_pred {A : Type} (xs : list A) :
  slice None (Some (Z.of_nat (length xs / 2) - 1)) xs = take (length xs / 2 - 1) xs.
Proof.
  unfold slice. cbn [from_option]. rewrite drop_0.
  pose proof (Nat.div_mod_eq (length xs) 2) as Hd.
  pose proof (Nat.mod_upper_bound (length xs) 2 ltac:(lia)) as Hm.
  destruct (Z.ltb_spec (Z.of_nat (length xs / 2) - 1) 0).
  - assert (length xs / 2 = 0)%nat as -> by lia. simpl.
    f_equal. lia.
  - f_equal. lia.
Qed.

Lemma planar_get_edges_eq_any (g : graph) (V : vref -> vertex) (anyons : list vref) :
  let mid := (length anyons / 2)%nat in
  planar.get_edges g V anyons
  = Ok ((enumerate 0 (take (mid - 1) anyons) ≫= fun '(i0, v0) =>
          enumerate 0 (take (mid - S i0) (drop (S i0) anyons)) ≫= fun '(i1, v1) =>
          [((i0, i1 + i0 + 1)%nat, planar.weight (sID (V v0)) (sID (V v1)))])
        ++ (enumerate mid (take (length anyons - 1 - mid) (drop mid anyons))
            ≫= fun '(i0, v0) =>
             enumerate (i0 + 1) (drop (S i0) anyons) ≫= fun '(i1, v1) =>
             [((i0, i1), 0)])
        ++ (seq 0 mid ≫= fun i =>
             match anyons !! i, anyons !! (mid + i)%nat with
             | Some vs, Some vb =>
                 [((i, (mid + i)%nat), planar.boundary_weight (sID (V vs)) (sID (V vb)))]
             | _, _ => []
             end)).
Proof.
  intros mid.
  pose proof (Nat.div_mod_eq (length anyons) 2) as Hd.
  pose proof (Nat.mod_upper_bound (length anyons) 2 ltac:(lia)) as Hm.
  subst mid. unfold planar.get_edges. cbv zeta.
  rewrite slice_upto_half_pred.
  rewrite slice_tail_but_last by lia.
  match goal with
  | |- _ = Ok ((_ ≫= ?fa) ++ (_ ≫= ?fb) ++ (_ ≫= ?fc)) =>
      rewrite (fold_left_append _ fa _ []), (fold_left_append _ fb),
        (for_each_append _ fc)
  end.
  - by rewrite app_nil_l, <- app_assoc.
  - intros i s Hi. apply elem_of_seq in Hi. unfold getitem.
    destruct (lookup_lt_is_Some_2 anyons i ltac:(lia)) as [vs ->].
    destruct (lookup_lt_is_Some_2 anyons (length anyons / 2 + i)%nat ltac:(lia))
      as [vb ->].
    reflexivity.
  - intros [i0 v0] s _. rewrite slice_from.
    apply fold_left_append. by intros [i1 v1] s' _.
  - intros [i0 v0] s _. rewrite slice_between by lia.
    apply fold_left_append. by intros [i1 v1] s' _.
Qed.

Lemma planar_weights_nonneg (s0 s1 : sID_t) :
  0 <= planar.weight s0 s1 /\ 0 <= planar.boundary_weight s0 s1.
Proof.
  destruct s0 as [[t0 y0] x0], s1 as [[t1 y1] x1].
  unfold planar.weight, planar.boundary_weight. destruct (t1 =? 0); lia.
Qed.

(** [planar.get_edges] raises on no node list, of even length or not; every
    entry it returns joins two positions [i < j] of the list with a weight
    that is not negative. *)
Theorem planar_get_edges_total (g : graph) (V : vref -> vertex) (anyons : list vref) :
  exists edges,
    planar.get_edges g V anyons = Ok edges /\
    forall i j w, ((i, j), w) ∈ edges ->
      (i < j)%nat /\ (j < length anyons)%nat /\ 0 <= w.
Proof.
  pose proof (Nat.div_mod_eq (length anyons) 2) as Hd.
  pose proof (Nat.mod_upper_bound (length anyons) 2 ltac:(lia)) as Hm.
  eexists. split; [apply planar_get_edges_eq_any|].
  intros i j w Hin. rewrite !elem_of_app in Hin. destruct Hin as [Hin|[Hin|Hin]].
  - apply (elem_of_pairs_below anyons (length anyons / 2)) in Hin
      as [? (v0 & v1 & _ & H1 & ->)]; [|lia].
    apply lookup_lt_Some in H1. pose proof (planar_weights_nonneg (sID (V v0)) (sID (V v1))).
    lia.
  - apply elem_of_virtual_pairs in Hin; lia.
  - apply elem_of_companions in Hin as (? & -> & vs & vb & _ & Hb & ->).
    apply lookup_lt_Some in Hb.
    pose proof (planar_weights_nonneg (sID (V vs)) (sID (V vb))). lia.
Qed.

(** On a lattice of size [n > 0] every entry of [toric.get_edges] joins two
    positions [i < j] of the list with a weight between 0 and [n]. *)
Theorem toric_get_edges_in_range (g : graph) (V : vref -> vertex) (anyons : list vref) :
  0 < graph_size g ->
  exists edges,
    toric.get_edges g V anyons = Ok edges /\
    forall i j w, ((i, j), w) ∈ edges ->
      (i < j)%nat /\ (j < length anyons)%nat /\ 0 <= w <= graph_size g.
Proof.
  intros Hn. eexists. split.
  - apply toric_get_edges_eq. intros s0 s1. apply toric_weight_ok. lia.
  - intros i j w Hin.
    apply (elem_of_pairs_below anyons (length anyons)) in Hin
      as [? (v0 & v1 & _ & H1 & ->)]; [|done].
    pose proof (Z.mod_pos_bound (sid_y (sID (V v0)) - sid_y (sID (V v1))) _ Hn).
    pose proof (Z.mod_pos_bound (sid_x (sID (V v0)) - sid_x (sID (V v1))) _ Hn).
    lia.
Qed.

(** * Further properties of defect extraction *)

Lemma planar_get_stabs_loop_missing (g : graph) (V : vref -> vertex)
    (xs : list vref) (acc : list vref * list vref * list vref * list vref) :
  let n := graph_size g in
  (exists v, v ∈ xs /\ stab_state (V v) = true /\
     graph_B g !!
       (if sid_type (sID (V v)) =? 0
        then (0, sid_y (sID (V v)), if 2 * sid_x (sID (V v)) <? n then 0 else n)
        else (sid_type (sID (V v)),
              if 2 * sid_y (sID (V v)) <? n then -1 else n - 1,
              sid_x (sID (V v)))) = None) ->
  for_each
    (fun (stab : vref) (acc : list vref * list vref * list vref * list vref) =>
       let '(verts, plaqs, tv, tp) := acc in
       let '(type, y, x) := sID (V stab) in
       if stab_state (V stab)
       then (if type =? 0
             then
               b ← (if 2 * x <? graph_size g
                    then B_getitem g (type, y, 0)
                    else B_getitem g (type, y, graph_size g));
               Ok (verts ++ [stab], plaqs, tv ++ [b], tp)
             else
               b ← (if 2 * y <? graph_size g
                    then B_getitem g (type, -1, x)
                    else B_getitem g (type, graph_size g - 1, x));
               Ok (verts, plaqs ++ [stab], tv, tp ++ [b]))
       else Ok acc)
    xs acc
  = Raise KeyError.
Proof.
  intros n. revert acc. induction xs as [|x xs IH]; intros acc (v & Hv & Hst & Hkey).
  - by apply elem_of_nil in Hv.
  - destruct acc as [[[verts plaqs] tv] tp]. cbn [for_each].
    destruct (sID (V x)) as [[t y] x0] eqn:Hsid.
    assert (Htail : x <> v ->
      exists v, v ∈ xs /\ stab_state (V v) = true /\
        graph_B g !!
          (if sid_type (sID (V v)) =? 0
           then (0, sid_y (sID (V v)), if 2 * sid_x (sID (V v)) <? n then 0 else n)
           else (sid_type (sID (V v)),
                 if 2 * sid_y (sID (V v)) <? n then -1 else n - 1,
                 sid_x (sID (V v)))) = None).
    { intros Hne. exists v. apply elem_of_cons in Hv as [->|Hv]; [done|]. by split. }
    destruct (decide (x = v)) as [->|Hne].
    + rewrite Hst. rewrite Hsid in Hkey.
      change (sid_type (t, y, x0)) with t in Hkey.
      change (sid_y (t, y, x0)) with y in Hkey.
      change (sid_x (t, y, x0)) with x0 in Hkey. fold n.
      unfold B_getitem.
      destruct (Z.eqb_spec t 0) as [->|Ht]; [destruct (2 * x0 <? n)|destruct (2 * y <? n)];
        by rewrite Hkey.
    + destruct (stab_state (V x)); [|by apply IH, Htail].
      unfold B_getitem.
      destruct (t =? 0); [destruct (2 * x0 <? graph_size g)|destruct (2 * y <? graph_size g)];
        match goal with
        | |- context [graph_B g !! ?k] =>
            destruct (graph_B g !! k); [by apply IH, Htail|done]
        end.
Qed.

(** On a lattice of size up to 2^53, when the boundary table lacks the node
    an active stabilizer asks for, [planar.get_stabs] raises [KeyError] and
    returns nothing. *)
Theorem planar_get_stabs_missing_boundary (g : graph) (V : vref -> vertex) :
  let n := graph_size g in
  Z.abs n <= 2 ^ 53 ->
  (exists v, v ∈ S_values g /\ stab_state (V v) = true /\
     graph_B g !!
       (if sid_type (sID (V v)) =? 0
        then (0, sid_y (sID (V v)), if 2 * sid_x (sID (V v)) <? n then 0 else n)
        else (sid_type (sID (V v)),
              if 2 * sid_y (sID (V v)) <? n then -1 else n - 1,
              sid_x (sID (V v)))) = None) ->
  planar.get_stabs g V = Raise KeyError.
Proof.
  intros n Hn H. rewrite planar_get_stabs_exact by done.
  by rewrite planar_get_stabs_loop_missing.
Qed.

(** * Defect extraction followed by the planar edge weights *)

Lemma boundary_weight_vertex (s : sID_t) (yb xb : Z) :
  planar.boundary_weight s (0, yb, xb) = Z.abs (xb - sid_x s).
Proof. by destruct s as [[? ?] ?]. Qed.

Lemma boundary_weight_plaquette (s : sID_t) (t yb xb : Z) :
  t <> 0 -> planar.boundary_weight s (t, yb, xb) = Z.abs (yb - sid_y s).
Proof.
  intros Ht. destruct s as [[? ?] ?]. unfold planar.boundary_weight.
  by destruct (Z.eqb_spec t 0).
Qed.

(** On a planar lattice of size up to 2^53 whose boundary table holds every
    node asked for,
    each under its key as identity, the node lists of [planar.get_stabs] go
    through [planar.get_edges] and the edge of a defect to its companion
    weighs the distance to the boundary chosen: [|x|] or [|size - x|] for a
    vertex defect in column [x], [|y + 1|] or [|size - 1 - y|] for a
    plaquette defect in row [y]. *)
Theorem planar_companion_weights (g : graph) (V : vref -> vertex) :
  let n := graph_size g in
  Z.abs n <= 2 ^ 53 ->
  (forall v, v ∈ S_values g -> stab_state (V v) = true ->
      is_Some (graph_B g !!
        (if sid_type (sID (V v)) =? 0
         then (0, sid_y (sID (V v)), if 2 * sid_x (sID (V v)) <? n then 0 else n)
         else (sid_type (sID (V v)),
               if 2 * sid_y (sID (V v)) <? n then -1 else n - 1,
               sid_x (sID (V v)))))) ->
  (forall key b, graph_B g !! key = Some b -> sID (V b) = key) ->
  exists vs ps ev ep,
    planar.get_stabs g V = Ok (vs, ps) /\
    planar.get_edges g V vs = Ok ev /\
    planar.get_edges g V ps = Ok ep /\
    (forall i v, (i < length vs / 2)%nat -> vs !! i = Some v ->
       ((i, (length vs / 2 + i)%nat),
        if 2 * sid_x (sID (V v)) <? n
        then Z.abs (sid_x (sID (V v)))
        else Z.abs (n - sid_x (sID (V v)))) ∈ ev) /\
    (forall i v, (i < length ps / 2)%nat -> ps !! i = Some v ->
       ((i, (length ps / 2 + i)%nat),
        if 2 * sid_y (sID (V v)) <? n
        then Z.abs (sid_y (sID (V v)) + 1)
        else Z.abs (n - 1 - sid_y (sID (V v)))) ∈ ep).
Proof.
  intros n Hn HB HsID.
  destruct (planar_get_stabs_loop g V (S_values g) [] [] [] [] HB)
    as (tv & tp & Heq & Hv & Hp).
  pose proof (Forall2_length _ _ _ Hv) as Hlv.
  pose proof (Forall2_length _ _ _ Hp) as Hlp.
  set (verts := filter (fun v => stab_state (V v) = true /\ sid_type (sID (V v)) = 0)
                  (S_values g)) in *.
  set (plaqs := filter (fun v => stab_state (V v) = true /\ sid_type (sID (V v)) <> 0)
                  (S_values g)) in *.
  assert (Hmv : (length (verts ++ tv) / 2 = length verts)%nat).
  { rewrite length_app, <- Hlv.
    replace (length verts + length verts)%nat with (length verts * 2)%nat by lia.
    by apply Nat.div_mul. }
  assert (Hmp : (length (plaqs ++ tp) / 2 = length plaqs)%nat).
  { rewrite length_app, <- Hlp.
    replace (length plaqs + length plaqs)%nat with (length plaqs * 2)%nat by lia.
    by apply Nat.div_mul. }
  exists (verts ++ tv), (plaqs ++ tp). eexists _, _.
  split; [rewrite planar_get_stabs_exact by done; by rewrite Heq|].
  split; [apply planar_get_edges_eq_any|].
  split; [apply planar_get_edges_eq_any|].
  split.
  - intros i v Hi Hlook. rewrite Hmv in Hi |- *.
    rewrite lookup_app_l in Hlook by done.
    destruct (Forall2_lookup_l _ _ _ _ _ Hv Hlook) as (b & Hb & Hkey).
    rewrite !elem_of_app. right. right. apply elem_of_companions.
    split; [done|]. split; [done|]. exists v, b.
    split; [by rewrite lookup_app_l|].
    split; [by rewrite lookup_app_r, Nat.add_comm, Nat.add_sub by lia|].
    rewrite (HsID _ _ Hkey), boundary_weight_vertex. fold n.
    destruct (2 * sid_x (sID (V v)) <? n); lia.
  - intros i v Hi Hlook. rewrite Hmp in Hi |- *.
    rewrite lookup_app_l in Hlook by done.
    destruct (Forall2_lookup_l _ _ _ _ _ Hp Hlook) as (b & Hb & Hkey).
    assert (Ht : sid_type (sID (V v)) <> 0).
    { apply list_elem_of_lookup_2 in Hlook. by apply list_elem_of_filter in Hlook as [[_ ?] _]. }
    rewrite !elem_of_app. right. right. apply elem_of_companions.
    split; [done|]. split; [done|]. exists v, b.
    split; [by rewrite lookup_app_l|].
    split; [by rewrite lookup_app_r, Nat.add_comm, Nat.add_sub by lia|].
    rewrite (HsID _ _ Hkey), boundary_weight_plaquette by done. fold n.
    destruct (2 * sid_y (sID (V v)) <? n); lia.
Qed.

(** * The matching adapters, whatever the solver *)

Lemma filter_none {A : Type} (P : A -> Prop) `{forall x, Decision (P x)} (xs : list A) :
  (forall x, x ∈ xs -> ~ P x) -> filter P xs = [].
Proof.
  induction xs as [|x xs IH]; intros Hn; [done|].
  rewrite filter_cons, decide_False by (apply Hn; left).
  apply IH. intros y Hy. apply Hn. by right.
Qed.

Lemma toric_get_stabs_none (g : graph) (V : vref -> vertex) :
  (forall v, v ∈ S_values g -> stab_state (V v) = false) ->
  toric.get_stabs g V = ([], []).
Proof.
  intros Hn. unfold toric.get_stabs. rewrite toric_get_stabs_loop.
  rewrite (filter_none (fun v => stab_state (V v) = true /\ sid_type (sID (V v)) = 0))
    by (intros v Hv' [Hst _]; rewrite (Hn v Hv') in Hst; done).
  rewrite (filter_none (fun v => stab_state (V v) = true /\ sid_type (sID (V v)) <> 0))
    by (intros v Hv' [Hst _]; rewrite (Hn v Hv') in Hst; done).
  done.
Qed.

Lemma for_each_skip {A St : Type} (body : A -> St -> res St) (xs : list A) (s : St) :
  (forall x, x ∈ xs -> body x s = Ok s) -> for_each body xs s = Ok s.
Proof.
  induction xs as [|x xs IH]; intros Hb; [done|].
  simpl. rewrite Hb by left. simpl. apply IH. intros y Hy. apply Hb. by right.
Qed.

Lemma planar_get_stabs_none (g : graph) (V : vref -> vertex) :
  (forall v, v ∈ S_values g -> stab_state (V v) = false) ->
  planar.get_stabs g V = Ok ([], []).
Proof.
  intros Hn. unfold planar.get_stabs.
  rewrite for_each_skip; [done|].
  intros x Hx. destruct (sID (V x)) as [[t y] x0]. by rewrite (Hn x Hx).
Qed.

(** With no active stabilizer, both adapters of both classes set the
    matching to the empty list without calling the solver, and
    [apply_matching] then returns without touching an edge, whatever the
    lattice type and size. *)
Theorem empty_syndrome_no_correction (mwm : nxgraph -> list (nat * nat))
    (gm : nat -> list wedge -> list Z) (C : decoder_class) (w : world) :
  C = toric_class \/ C = planar_class ->
  (forall v, v ∈ S_values (w_graph w) -> stab_state (w_V w v) = false) ->
  get_matching_networkx mwm C w = (set_matching [] w, None) /\
  get_matching_blossom5 gm C w = (set_matching [] w, None) /\
  apply_matching (set_matching [] w) = (set_matching [] w, None).
Proof.
  intros HC Hn.
  assert (Hs : cls_get_stabs C (w_graph w) (w_V w) = Ok ([], [])).
  { destruct HC as [-> | ->]; simpl.
    - by rewrite toric_get_stabs_none.
    - by apply planar_get_stabs_none. }
  unfold get_matching_networkx, get_matching_blossom5. rewrite Hs.
  repeat split.
Qed.

Lemma getitem_elem {A : Type} (xs : list A) (i : nat) (a : A) :
  getitem xs i = Ok a -> a ∈ xs.
Proof.
  unfold getitem. destruct (xs !! i) eqn:Hl; [|done].
  intros [= <-]. by eapply list_elem_of_lookup_2.
Qed.

Lemma getitemZ_elem {A : Type} (xs : list A) (i : Z) (a : A) :
  getitemZ xs i = Ok a -> a ∈ xs.
Proof.
  unfold getitemZ. destruct (i <? 0); [destruct (_ <? 0); [done|]|]; apply getitem_elem.
Qed.

Lemma comprehension_elem {A B : Type} (f : A -> res B) (xs : list A) (ys : list B) :
  comprehension f xs = Ok ys ->
  forall y, y ∈ ys -> exists x, x ∈ xs /\ f x = Ok y.
Proof.
  revert ys. induction xs as [|x xs IH]; intros ys Hc y Hy; simpl in Hc.
  - injection Hc as <-. by apply elem_of_nil in Hy.
  - destruct (f x) as [y0|] eqn:Hx; [|done]. simpl in Hc.
    destruct (comprehension f xs) as [ys0|] eqn:Hxs; [|done]. simpl in Hc.
    injection Hc as <-. apply elem_of_cons in Hy as [->|Hy].
    + exists x. split; [left|done].
    + destruct (IH ys0 eq_refl y Hy) as (x' & ? & ?). exists x'. split; [by right|done].
Qed.

Lemma networkx_pairs_from_anyons (mwm : nxgraph -> list (nat * nat))
    (C : decoder_class) (w : world) (nxg : nxgraph) (anyons : list vref)
    (m : list (vref * vref)) :
  (networkx_get_matching mwm C w nxg anyons).2 = Ok m ->
  forall a b, (a, b) ∈ m -> a ∈ anyons /\ b ∈ anyons.
Proof.
  unfold networkx_get_matching.
  destruct (cls_get_edges C (w_graph w) (w_V w) anyons) as [edges|]; [|done].
  cbn [snd]. intros Hc a b Hin.
  destruct (comprehension_elem _ _ _ Hc _ Hin) as ([i0 i1] & _ & Hf).
  destruct (getitem anyons i0) as [a'|] eqn:Ha; [|done].
  destruct (getitem anyons i1) as [b'|] eqn:Hb; [|done].
  injection Hf as -> ->. split; by eapply getitem_elem.
Qed.

Lemma blossom5_pairs_from_anyons (gm : nat -> list wedge -> list Z)
    (C : decoder_class) (w : world) (anyons : list vref) (m : list (vref * vref)) :
  blossom5_get_matching gm C w anyons = Ok m ->
  forall a b, (a, b) ∈ m -> a ∈ anyons /\ b ∈ anyons.
Proof.
  unfold blossom5_get_matching.
  destruct (cls_get_edges C (w_graph w) (w_V w) anyons) as [edges|]; [|done].
  cbn [mbind res_bind]. intros Hc a b Hin.
  destruct (comprehension_elem _ _ _ Hc _ Hin) as ([i0 i1] & _ & Hf).
  destruct (getitem anyons i0) as [a'|] eqn:Ha; [|done].
  destruct (getitemZ anyons i1) as [b'|] eqn:Hb; [|done].
  injection Hf as -> ->. split; [by eapply getitem_elem|by eapply getitemZ_elem].
Qed.

(** Whatever the solvers answer, a toric adapter that returns leaves the
    lattice and the edges alone, and every pair of the matching it sets
    joins two active stabilizers of the lattice of the same kind: two of
    type 0 or two of another type. *)
Theorem toric_matching_pairs_same_kind (mwm : nxgraph -> list (nat * nat))
    (gm : nat -> list wedge -> list Z) (w w' : world) :
  get_matching_networkx mwm toric_class w = (w', None) \/
  get_matching_blossom5 gm toric_class w = (w', None) ->
  w_graph w' = w_graph w /\ w_V w' = w_V w /\ w_E w' = w_E w /\
  forall a b, (a, b) ∈ w_matching w' ->
    a ∈ S_values (w_graph w) /\ b ∈ S_values (w_graph w) /\
    stab_state (w_V w a) = true /\ stab_state (w_V w b) = true /\
    (sid_type (sID (w_V w a)) = 0 <-> sid_type (sID (w_V w b)) = 0).
Proof.
  set (verts := filter (fun v => stab_state (w_V w v) = true
                                 /\ sid_type (sID (w_V w v)) = 0)
                  (S_values (w_graph w))).
  set (plaqs := filter (fun v => stab_state (w_V w v) = true
                                 /\ sid_type (sID (w_V w v)) <> 0)
                  (S_values (w_graph w))).
  assert (Hs : toric.get_stabs (w_graph w) (w_V w) = (verts, plaqs))
    by (unfold toric.get_stabs; by rewrite toric_get_stabs_loop).
  assert (Hpair : forall (m1 m2 : list (vref * vref)),
    (forall a b, (a, b) ∈ m1 -> a ∈ verts /\ b ∈ verts) ->
    (forall a b, (a, b) ∈ m2 -> a ∈ plaqs /\ b ∈ plaqs) ->
    forall a b, (a, b) ∈ ([] ++ m1) ++ m2 ->
      a ∈ S_values (w_graph w) /\ b ∈ S_values (w_graph w) /\
      stab_state (w_V w a) = true /\ stab_state (w_V w b) = true /\
      (sid_type (sID (w_V w a)) = 0 <-> sid_type (sID (w_V w b)) = 0)).
  { intros m1 m2 H1 H2 a b Hin. rewrite app_nil_l in Hin.
    apply elem_of_app in Hin as [Hin|Hin].
    - destruct (H1 a b Hin) as [Ha Hb].
      apply list_elem_of_filter in Ha as [[? ?] ?], Hb as [[? ?] ?]. tauto.
    - destruct (H2 a b Hin) as [Ha Hb].
      apply list_elem_of_filter in Ha as [[? ?] ?], Hb as [[? ?] ?]. tauto. }
  assert (Hnil : forall (l : list vref) a b, (a, b) ∈ @nil (vref * vref) -> a ∈ l /\ b ∈ l)
    by (intros l a b H; by apply elem_of_nil in H).
  intros [H|H].
  - unfold get_matching_networkx in H. cbn [cls_get_stabs toric_class] in H.
    rewrite Hs in H.
    set (r1 := match verts with
               | [] => ([], Ok [])
               | _ :: _ => networkx_get_matching mwm toric_class (set_matching [] w) [] verts
               end) in H.
    assert (H1 : forall m, r1.2 = Ok m -> forall a b, (a, b) ∈ m -> a ∈ verts /\ b ∈ verts).
    { unfold r1. destruct verts.
      - intros m [= <-]. apply Hnil.
      - apply networkx_pairs_from_anyons. }
    destruct r1 as [nxg [m1|]]; [|by injection H]. cbn [set_matching w_matching] in H.
    set (r2 := match plaqs with
               | [] => (nxg, Ok [])
               | _ :: _ => networkx_get_matching mwm toric_class _ nxg plaqs
               end) in H.
    assert (H2 : forall m, r2.2 = Ok m -> forall a b, (a, b) ∈ m -> a ∈ plaqs /\ b ∈ plaqs).
    { unfold r2. destruct plaqs.
      - intros m [= <-]. apply Hnil.
      - apply networkx_pairs_from_anyons. }
    destruct r2 as [nxg' [m2|]]; [|by injection H].
    injection H as <-. cbn [set_matching w_graph w_V w_E w_matching].
    split; [done|]. split; [done|]. split; [done|].
    intros a b Hin. exact (Hpair m1 m2 (H1 m1 eq_refl) (H2 m2 eq_refl) a b Hin).
  - unfold get_matching_blossom5 in H. cbn [cls_get_stabs toric_class] in H.
    rewrite Hs in H.
    set (r1 := match verts with
               | [] => Ok []
               | _ :: _ => blossom5_get_matching gm toric_class (set_matching [] w) verts
               end) in H.
    assert (H1 : forall m, r1 = Ok m -> forall a b, (a, b) ∈ m -> a ∈ verts /\ b ∈ verts).
    { unfold r1. destruct verts.
      - intros m [= <-]. apply Hnil.
      - apply blossom5_pairs_from_anyons. }
    destruct r1 as [m1|]; [|by injection H]. cbn [set_matching w_matching] in H.
    set (r2 := match plaqs with
               | [] => Ok []
               | _ :: _ => blossom5_get_matching gm toric_class _ plaqs
               end) in H.
    assert (H2 : forall m, r2 = Ok m -> forall a b, (a, b) ∈ m -> a ∈ plaqs /\ b ∈ plaqs).
    { unfold r2. destruct plaqs.
      - intros m [= <-]. apply Hnil.
      - apply blossom5_pairs_from_anyons. }
    destruct r2 as [m2|]; [|by injection H].
    injection H as <-. cbn [set_matching w_graph w_V w_E w_matching].
    split; [done|]. split; [done|]. split; [done|].
    intros a b Hin. exact (Hpair m1 m2 (H1 m1 eq_refl) (H2 m2 eq_refl) a b Hin).
Qed.

(** * The blossom5 adapter on a partner array *)

Lemma comprehension_Forall2 {A B : Type} (f : A -> res B) (P : A -> B -> Prop)
    (xs : list A) :
  (forall x, x ∈ xs -> exists y, f x = Ok y /\ P x y) ->
  exists ys, comprehension f xs = Ok ys /\ Forall2 P xs ys.
Proof.
  induction xs as [|x xs IH]; intros Hf.
  - exists []. by split.
  - destruct (Hf x (list_elem_of_here _ _)) as (y & Hy & HP).
    destruct IH as (ys & Hys & HF); [intros x' Hx'; apply Hf; by right|].
    exists (y :: ys). simpl. rewrite Hy. simpl. rewrite Hys. simpl.
    split; [done|by constructor].
Qed.

Lemma elem_of_kept_pairs (out : list Z) (i0 : nat) (i1 : Z) :
  (i0, i1) ∈ filter (fun '(i0, i1) => i1 < Z.of_nat i0) (enumerate 0 out)
  <-> i1 < Z.of_nat i0 /\ out !! i0 = Some i1.
Proof.
  rewrite list_elem_of_filter, elem_of_enumerate, Nat.sub_0_r.
  split; [intros [? [_ ?]]|intros [? ?]]; repeat split; done || lia.
Qed.

(** When the solver answers with a partner array over the defects (entry
    [i] names the partner of [i], and the partner names [i] back), the
    blossom5 adapter raises nothing and returns the pairs [(i0, i1)] with
    [i1 < i0]: every defect position lies in exactly one pair. *)
Theorem blossom5_partner_array_pairs (gm : nat -> list wedge -> list Z)
    (C : decoder_class) (w : world) (anyons : list vref) (edges : list wedge) :
  let out := gm (length anyons) edges in
  let kept := filter (fun '(i0, i1) => i1 < Z.of_nat i0) (enumerate 0 out) in
  cls_get_edges C (w_graph w) (w_V w) anyons = Ok edges ->
  length out = length anyons ->
  (forall i j, out !! i = Some j ->
     0 <= j /\ j <> Z.of_nat i /\ out !! Z.to_nat j = Some (Z.of_nat i)) ->
  exists m,
    blossom5_get_matching gm C w anyons = Ok m /\
    Forall2 (fun p q => anyons !! p.1 = Some q.1 /\ anyons !! Z.to_nat p.2 = Some q.2)
      kept m /\
    forall k, (k < length anyons)%nat ->
      exists i0 i1,
        (i0, i1) ∈ kept /\ (k = i0 \/ Z.of_nat k = i1) /\
        forall i0' i1', (i0', i1') ∈ kept -> (k = i0' \/ Z.of_nat k = i1') ->
          i0' = i0 /\ i1' = i1.
Proof.
  intros out kept He Hlen Hinv.
  destruct (comprehension_Forall2
              (fun '(i0, i1) => a ← getitem anyons i0; b ← getitemZ anyons i1; Ok (a, b))
              (fun p q => anyons !! p.1 = Some q.1 /\ anyons !! Z.to_nat p.2 = Some q.2)
              kept) as (m & Hm & HF).
  { intros [i0 i1] Hin. apply elem_of_kept_pairs in Hin as [Hlt Hl].
    destruct (Hinv _ _ Hl) as (H0 & _ & Hback).
    apply lookup_lt_Some in Hl, Hback. rewrite Hlen in Hl, Hback.
    destruct (lookup_lt_is_Some_2 anyons i0 Hl) as [a Ha].
    destruct (lookup_lt_is_Some_2 anyons (Z.to_nat i1) Hback) as [b Hb].
    exists (a, b). split; [|done].
    unfold getitemZ, getitem. rewrite Ha. cbn [mbind res_bind].
    destruct (Z.ltb_spec i1 0); [lia|]. by rewrite Hb. }
  exists m. split; [|split; [exact HF|]].
  - unfold blossom5_get_matching. rewrite He. exact Hm.
  - intros k Hk.
    destruct (lookup_lt_is_Some_2 out k ltac:(lia)) as [j Hj].
    destruct (Hinv _ _ Hj) as (H0 & Hne & Hback).
    destruct (Z.lt_ge_cases j (Z.of_nat k)) as [Hlt|Hge].
    + exists k, j. split; [by apply elem_of_kept_pairs|]. split; [by left|].
      intros i0' i1' Hin [->|Hk1].
      * apply elem_of_kept_pairs in Hin as [_ Hl]. split; [done|congruence].
      * apply elem_of_kept_pairs in Hin as [Hlt' Hl]. subst i1'.
        destruct (Hinv _ _ Hl) as (_ & _ & Hb'). rewrite Nat2Z.id in Hb'.
        assert (j = Z.of_nat i0') by congruence. lia.
    + exists (Z.to_nat j), (Z.of_nat k).
      split; [apply elem_of_kept_pairs; split; [lia|done]|]. split; [by right|].
      intros i0' i1' Hin [->|Hk1].
      * apply elem_of_kept_pairs in Hin as [Hlt' Hl].
        assert (j = i1') by congruence. lia.
      * apply elem_of_kept_pairs in Hin as [Hlt' Hl]. subst i1'.
        destruct (Hinv _ _ Hl) as (_ & _ & Hb'). rewrite Nat2Z.id in Hb'.
        assert (j = Z.of_nat i0') by congruence. split; [lia|done].
Qed.

(** An entry [-1] of the solver's answer is not skipped: it is smaller than
    every position, so the adapter pairs the defect at that position with
    the last defect of the list. *)
Theorem blossom5_negative_entry_wraps (gm : nat -> list wedge -> list Z)
    (C : decoder_class) (w : world) (anyons : list vref) (edges : list wedge)
    (m : list (vref * vref)) (i : nat) (a z : vref) :
  cls_get_edges C (w_graph w) (w_V w) anyons = Ok edges ->
  gm (length anyons) edges !! i = Some (-1) ->
  anyons !! i = Some a ->
  last anyons = Some z ->
  blossom5_get_matching gm C w anyons = Ok m ->
  (a, z) ∈ m.
Proof.
  intros He Hout Ha Hz Hm. unfold blossom5_get_matching in Hm. rewrite He in Hm.
  cbn [mbind res_bind] in Hm.
  set (kept := filter (fun '(i0, i1) => i1 < Z.of_nat i0) _) in Hm.
  assert (Hin : (i, -1) ∈ kept) by (apply elem_of_kept_pairs; split; [lia|done]).
  clearbody kept. revert m Hm. induction kept as [|[i0 i1] kept IH]; intros m Hm.
  - by apply elem_of_nil in Hin.
  - simpl in Hm.
    destruct (getitem anyons i0) as [a'|] eqn:Ha'; [|done].
    destruct (getitemZ anyons i1) as [b'|] eqn:Hb'; [|done]. simpl in Hm.
    destruct (comprehension _ kept) as [m'|] eqn:Hc; [|done]. simpl in Hm.
    injection Hm as <-. apply elem_of_cons in Hin as [Heq|Hin].
    + injection Heq as <- <-.
      assert (a' = a) as ->
        by (unfold getitem in Ha'; rewrite Ha in Ha'; by injection Ha').
      assert (b' = z) as ->.
      { pose proof (lookup_lt_Some _ _ _ Ha) as Hlen.
        unfold getitemZ, getitem in Hb'. simpl in Hb'.
        destruct (Z.ltb_spec (Z.of_nat (length anyons) + -1) 0); [lia|].
        rewrite last_lookup in Hz.
        replace (Z.to_nat (Z.of_nat (length anyons) + -1)) with (pred (length anyons))
          in Hb' by lia.
        rewrite Hz in Hb'. by injection Hb'. }
      left.
    + right. by apply IH.
Qed.

(** * The graph the networkx adapter hands to its solver *)

Lemma same_edge_ordered (i j a b : nat) :
  (i < j)%nat -> (a < b)%nat -> same_edge i j a b = true <-> a = i /\ b = j.
Proof.
  intros Hij Hab. unfold same_edge.
  rewrite orb_true_iff, !andb_true_iff, !Nat.eqb_eq. lia.
Qed.

Lemma elem_of_keys (G : nxgraph) (a b : nat) :
  (a, b) ∈ G.*1 <-> exists c, ((a, b), c) ∈ G.
Proof.
  rewrite list_elem_of_fmap. split.
  - intros [[[a' b'] c] [Heq Hin]]. simpl in Heq. injection Heq as <- <-. by exists c.
  - intros [c Hin]. by exists ((a, b), c).
Qed.

Lemma elem_of_add_edge (G : nxgraph) (i j : nat) (w : Z) (a b : nat) (c : Z) :
  nx_wf G -> (i < j)%nat ->
  ((a, b), c) ∈ add_edge G i j w
  <-> (a = i /\ b = j /\ c = w) \/ ((a, b) <> (i, j) /\ ((a, b), c) ∈ G).
Proof.
  intros [Hnd Hord] Hij. induction G as [|[[a0 b0] w0] G IH].
  - simpl. rewrite list_elem_of_singleton. split.
    + intros [= -> -> ->]. by left.
    + intros [(-> & -> & ->)|[_ H]]; [done|by apply elem_of_nil in H].
  - assert (Hab0 : (a0 < b0)%nat) by (apply (Hord a0 b0 w0); left).
    apply NoDup_cons in Hnd as [Hnin Hnd].
    assert (Hord' : forall a b c, ((a, b), c) ∈ G -> (a < b)%nat)
      by (intros ? ? ? ?; eapply Hord; by right).
    specialize (IH Hnd Hord'). simpl.
    destruct (same_edge i j a0 b0) eqn:Hs.
    + apply same_edge_ordered in Hs as [-> ->]; [|done..].
      rewrite !elem_of_cons. split.
      * intros [[= -> -> ->]|Hin]; [by left|]. right. split; [|by right].
        intros [= -> ->]. apply Hnin, elem_of_keys. by exists c.
      * intros [(-> & -> & ->)|[Hne [[= -> -> ->]|Hin]]]; [by left|done|by right].
    + assert (Hne0 : (a0, b0) <> (i, j)).
      { intros [= -> ->]. by rewrite (proj2 (same_edge_ordered i j i j Hij Hij)) in Hs. }
      rewrite !elem_of_cons, IH. split.
      * intros [[= -> -> ->]|[?|[? ?]]]; [right; split; [done|by left]|by left|].
        right. split; [done|by right].
      * intros [?|[Hne [[= -> -> ->]|Hin]]]; [right; by left|by left|].
        right. right. by split.
Qed.

Lemma add_edge_wf (G : nxgraph) (i j : nat) (w : Z) :
  nx_wf G -> (i < j)%nat -> nx_wf (add_edge G i j w).
Proof.
  intros Hwf Hij. split.
  - destruct Hwf as [Hnd Hord]. induction G as [|[[a0 b0] w0] G IH].
    + simpl. apply NoDup_singleton.
    + assert (Hab0 : (a0 < b0)%nat) by (apply (Hord a0 b0 w0); left).
      apply NoDup_cons in Hnd as [Hnin Hnd].
      assert (Hord' : forall a b c, ((a, b), c) ∈ G -> (a < b)%nat)
        by (intros ? ? ? ?; eapply Hord; by right).
      simpl. destruct (same_edge i j a0 b0) eqn:Hs.
      * simpl. by apply NoDup_cons.
      * simpl. apply NoDup_cons. split; [|by apply IH].
        intros Hin. apply elem_of_keys in Hin as [c Hin].
        apply (elem_of_add_edge G i j w a0 b0 c (conj Hnd Hord') Hij) in Hin
          as [(-> & -> & _)|[_ Hin]].
        -- by rewrite (proj2 (same_edge_ordered i j i j Hij Hij)) in Hs.
        -- apply Hnin, elem_of_keys. by exists c.
  - intros a b c Hin.
    apply (elem_of_add_edge G i j w a b c Hwf Hij) in Hin as [(-> & -> & _)|[_ Hin]].
    + done.
    + by eapply (proj2 Hwf).
Qed.

Lemma add_edges_spec (E : list wedge) (G : nxgraph) :
  nx_wf G -> NoDup (E.*1) -> (forall a b c, ((a, b), c) ∈ E -> (a < b)%nat) ->
  let G' := fold_left (fun (G : nxgraph) '(i0, i1, weight) => add_edge G i0 i1 (- weight))
              E G in
  nx_wf G' /\
  forall a b c, ((a, b), c) ∈ G'
    <-> (exists wt, ((a, b), wt) ∈ E /\ c = - wt) \/ (((a, b) ∉ E.*1) /\ ((a, b), c) ∈ G).
Proof.
  revert G. induction E as [|[[i j] wt0] E IH]; intros G Hwf Hnd Hord; simpl.
  - split; [done|]. intros a b c. split; [intros ?; right; split; [apply not_elem_of_nil|done]|].
    intros [[wt [H _]]|[_ H]]; [by apply elem_of_nil in H|done].
  - assert (Hij : (i < j)%nat) by (apply (Hord i j wt0); left).
    apply NoDup_cons in Hnd as [Hnin Hnd]. simpl in Hnin.
    destruct (IH (add_edge G i j (- wt0))) as [Hwf' Hchar];
      [by apply add_edge_wf|done|intros ? ? ? ?; eapply Hord; by right|].
    split; [done|]. intros a b c. rewrite Hchar, elem_of_add_edge by done.
    rewrite not_elem_of_cons. split.
    + intros [(wt & Hin & ->)|[Hn [(-> & -> & ->)|[Hne Hin]]]].
      * left. exists wt. split; [by right|done].
      * left. exists wt0. split; [by left|done].
      * right. split; [split; [done|done]|done].
    + intros [(wt & Hin & ->)|[[Hne Hn] Hin]].
      * apply elem_of_cons in Hin as [[= -> -> ->]|Hin].
        -- right. split; [done|]. left. done.
        -- left. by exists wt.
      * right. split; [done|]. right. by split.
Qed.

Lemma nx_wf_nil : nx_wf [].
Proof. split; [apply NoDup_nil_2|]. intros a b c H. by apply elem_of_nil in H. Qed.

(** On a toric lattice of size [n > 0] the graph [get_matching_networkx]
    hands to its solver for the second partition holds the negated edges of
    that partition and, beside them, exactly the first partition's edges to
    a node beyond the second partition's positions.  So the solver sees the
    second partition's own graph when the first partition is not the larger
    one, and a stale node otherwise. *)
Theorem networkx_second_graph (mwm : nxgraph -> list (nat * nat)) (w : world)
    (verts plaqs : list vref) :
  0 < graph_size (w_graph w) ->
  let nxg := (networkx_get_matching mwm toric_class w [] verts).1 in
  let nxg' := (networkx_get_matching mwm toric_class w nxg plaqs).1 in
  exists ev ep,
    toric.get_edges (w_graph w) (w_V w) verts = Ok ev /\
    toric.get_edges (w_graph w) (w_V w) plaqs = Ok ep /\
    (forall a b c, ((a, b), c) ∈ nxg'
       <-> (exists wt, ((a, b), wt) ∈ ep /\ c = - wt)
           \/ ((length plaqs <= b)%nat /\ exists wt, ((a, b), wt) ∈ ev /\ c = - wt)) /\
    ((length verts <= length plaqs)%nat ->
       forall a b c, ((a, b), c) ∈ nxg' <-> exists wt, ((a, b), wt) ∈ ep /\ c = - wt) /\
    ((length plaqs < length verts)%nat -> (2 <= length verts)%nat ->
       exists c, ((0%nat, (length verts - 1)%nat), c) ∈ nxg').
Proof.
  intros Hn nxg nxg'.
  set (W := fun s0 s1 : sID_t =>
    Z.min ((sid_y s0 - sid_y s1) mod graph_size (w_graph w))
          (graph_size (w_graph w) - (sid_y s0 - sid_y s1) mod graph_size (w_graph w))
    + Z.min ((sid_x s0 - sid_x s1) mod graph_size (w_graph w))
            (graph_size (w_graph w) - (sid_x s0 - sid_x s1) mod graph_size (w_graph w))).
  assert (HW : forall s0 s1, toric.weight (graph_size (w_graph w)) s0 s1 = Ok (W s0 s1))
    by (intros; apply toric_weight_ok; lia).
  pose proof (toric_get_edges_eq (w_graph w) (w_V w) verts W HW) as Hev.
  pose proof (toric_get_edges_eq (w_graph w) (w_V w) plaqs W HW) as Hep.
  set (ev := enumerate 0 (take (length verts - 1) verts) ≫= _) in Hev.
  set (ep := enumerate 0 (take (length plaqs - 1) plaqs) ≫= _) in Hep.
  assert (Hcv : forall a b c, ((a, b), c) ∈ ev <->
            (a < b < length verts)%nat /\ exists v0 v1,
              verts !! a = Some v0 /\ verts !! b = Some v1
              /\ c = W (sID (w_V w v0)) (sID (w_V w v1)))
    by (intros; by apply (elem_of_pairs_below verts (length verts))).
  assert (Hcp : forall a b c, ((a, b), c) ∈ ep <->
            (a < b < length plaqs)%nat /\ exists v0 v1,
              plaqs !! a = Some v0 /\ plaqs !! b = Some v1
              /\ c = W (sID (w_V w v0)) (sID (w_V w v1)))
    by (intros; by apply (elem_of_pairs_below plaqs (length plaqs))).
  assert (Hkp : forall a b, (a, b) ∈ ep.*1 <-> (a < b < length plaqs)%nat).
  { intros a b. rewrite elem_of_keys. split.
    - intros [c Hc]. by apply Hcp in Hc as [? _].
    - intros Hab.
      destruct (lookup_lt_is_Some_2 plaqs a ltac:(lia)) as [v0 H0].
      destruct (lookup_lt_is_Some_2 plaqs b ltac:(lia)) as [v1 H1].
      eexists. apply Hcp. split; [done|]. by exists v0, v1. }
  assert (Hg : nxg = fold_left
                 (fun (G : nxgraph) '(i0, i1, weight) => add_edge G i0 i1 (- weight)) ev []).
  { unfold nxg, networkx_get_matching. cbn [cls_get_edges toric_class]. by rewrite Hev. }
  assert (Hg' : nxg' = fold_left
                 (fun (G : nxgraph) '(i0, i1, weight) => add_edge G i0 i1 (- weight)) ep nxg).
  { unfold nxg', networkx_get_matching. cbn [cls_get_edges toric_class]. by rewrite Hep. }
  destruct (add_edges_spec ev [] nx_wf_nil) as [Hwf1 Hc1].
  { by apply (NoDup_pairs_below verts (length verts)). }
  { intros a b c Hin. apply Hcv in Hin. lia. }
  rewrite <- Hg in Hwf1, Hc1.
  destruct (add_edges_spec ep nxg Hwf1) as [Hwf2 Hc2].
  { by apply (NoDup_pairs_below plaqs (length plaqs)). }
  { intros a b c Hin. apply Hcp in Hin. lia. }
  rewrite <- Hg' in Hwf2, Hc2.
  assert (Hchar : forall a b c, ((a, b), c) ∈ nxg'
       <-> (exists wt, ((a, b), wt) ∈ ep /\ c = - wt)
           \/ ((length plaqs <= b)%nat /\ exists wt, ((a, b), wt) ∈ ev /\ c = - wt)).
  { intros a b c. rewrite Hc2, Hc1, Hkp. split.
    - intros [?|[Hnk [(wt & Hin & ->)|[_ Hnil]]]]; [by left| |by apply elem_of_nil in Hnil].
      right. pose proof (proj1 (Hcv a b wt) Hin) as [? _].
      split; [lia|]. by exists wt.
    - intros [?|[Hb (wt & Hin & ->)]]; [by left|].
      right. split; [lia|]. left. by exists wt. }
  exists ev, ep. split; [done|]. split; [done|]. split; [exact Hchar|]. split.
  - intros Hle a b c. rewrite Hchar. split; [|by left].
    intros [?|[Hb (wt & Hin & _)]]; [done|]. apply Hcv in Hin. lia.
  - intros Hlt H2.
    destruct (lookup_lt_is_Some_2 verts 0 ltac:(lia)) as [v0 H0].
    destruct (lookup_lt_is_Some_2 verts (length verts - 1) ltac:(lia)) as [v1 H1].
    eexists. apply Hchar. right. split; [lia|].
    eexists. split; [|reflexivity]. apply Hcv. split; [lia|]. by exists v0, v1.
Qed.

(** * Further properties of the correction walker *)

(** [apply_matching] with a pair to apply raises before it touches an
    edge when the lattice type is neither "toric" nor "planar"
    ([UnboundLocalError]) and when a toric lattice has size 0
    ([ZeroDivisionError]); the decoder is left as it was. *)
Theorem apply_matching_bad_geometry (w : world) (p : vref * vref)
    (m : list (vref * vref)) :
  w_matching w = p :: m ->
  (graph_type (w_graph w) <> "toric" -> graph_type (w_graph w) <> "planar" ->
   apply_matching w = (w, Some UnboundLocalError)) /\
  (graph_type (w_graph w) = "toric" -> graph_size (w_graph w) = 0 ->
   apply_matching w = (w, Some ZeroDivisionError)).
Proof.
  intros Hm. unfold apply_matching. rewrite Hm. destruct p as [v0 v1].
  cbn [apply_pairs apply_pair]. unfold route, deltas.
  destruct (sID (w_V w v0)) as [[t0 y0] x0], (sID (w_V w v1)) as [[t1 y1] x1].
  split.
  - intros Ht Hp.
    apply String.eqb_neq in Ht, Hp. by rewrite Ht, Hp.
  - intros Ht Hn. rewrite Ht, Hn. reflexivity.
Qed.

Lemma pairs_trace_all_ok (g : graph) (V : vref -> vertex) (m : list (vref * vref)) :
  Forall (fun p => (pair_trace g V p).2 = None) m ->
  pairs_trace g V m = (m ≫= (fun p => (pair_trace g V p).1), None).
Proof.
  induction 1 as [|p m Hp _ IH]; [done|].
  simpl. destruct (pair_trace g V p) as [t r]. simpl in Hp. subst r.
  by rewrite IH.
Qed.

Lemma pairs_trace_ok_inv (g : graph) (V : vref -> vertex) (m : list (vref * vref)) :
  (pairs_trace g V m).2 = None ->
  Forall (fun p => (pair_trace g V p).2 = None) m.
Proof.
  induction m as [|p m IH]; intros H; [constructor|].
  simpl in H. destruct (pair_trace g V p) as [t [e|]] eqn:Hp; [done|].
  constructor; [by rewrite Hp|]. apply IH.
  by destruct (pairs_trace g V m).
Qed.

Lemma flip_all_visits (t t' : list eref) (w : world) (e : eref) :
  Nat.odd (visits e t) = Nat.odd (visits e t') ->
  w_E (flip_all t w) e = w_E (flip_all t' w) e.
Proof.
  intros Hv.
  destruct (flip_all_edge t w e) as [H1 H2], (flip_all_edge t' w e) as [H1' H2'].
  rewrite Hv in H1, H2.
  destruct (w_E (flip_all t w) e), (w_E (flip_all t' w) e). simpl in *. congruence.
Qed.

Lemma flip_all_set_matching (t : list eref) (mm : list (vref * vref)) (w : world)
    (e : eref) :
  w_E (flip_all t (set_matching mm w)) e = w_E (flip_all t w) e.
Proof.
  revert w. induction t as [|e0 t IH]; intros w; [done|].
  change (flip_all (e0 :: t) (set_matching mm w))
    with (flip_all t (set_matching mm (flip_edge e0 w))).
  apply IH.
Qed.

(** The order of the pairs in the matching does not matter: when a run
    raises nothing, the run over any reordering of the matching raises
    nothing either and leaves every edge with the same flags. *)
Theorem apply_matching_order_irrelevant (w : world) (m m' : list (vref * vref)) :
  m ≡ₚ m' ->
  (apply_matching (set_matching m w)).2 = None ->
  (apply_matching (set_matching m' w)).2 = None /\
  forall e, w_E (apply_matching (set_matching m' w)).1 e
            = w_E (apply_matching (set_matching m w)).1 e.
Proof.
  intros Hperm Hok. rewrite !apply_matching_trace_spec in *. cbn [fst snd] in *.
  unfold matching_trace in *. cbn [set_matching w_graph w_V w_matching] in *.
  apply pairs_trace_ok_inv in Hok.
  assert (Hok' : Forall (fun p => (pair_trace (w_graph w) (w_V w) p).2 = None) m')
    by (by rewrite <- Hperm).
  rewrite !pairs_trace_all_ok by done. cbn [fst snd]. split; [done|].
  intros e.
  rewrite !flip_all_set_matching. apply flip_all_visits. unfold visits.
  by rewrite Hperm.
Qed.

(** [planar.remove_virtual] is idempotent: a second pass removes nothing. *)
Theorem remove_virtual_idempotent (w : world) :
  planar.remove_virtual (planar.remove_virtual w) = planar.remove_virtual w.
Proof.
  unfold planar.remove_virtual. cbn [w_graph w_V w_E w_matching].
  f_equal. rewrite !remove_virtual_loop, !app_nil_l.
  by apply list_filter_filter_l.
Qed.

Lemma toric_pair_trace_length (g : graph) (V : vref -> vertex) (v0 v1 : vref) :
  graph_type g = "toric" -> 0 < graph_size g ->
  (forall v dir, is_Some (neighbors (V v) dir)) ->
  exists t wt,
    pair_trace g V (v0, v1) = (t, None) /\
    toric.weight (graph_size g) (sID (V v0)) (sID (V v1)) = Ok wt /\
    Z.of_nat (length t) = wt.
Proof.
  intros Ht Hn Hl. set (n := graph_size g) in *.
  set (s0 := sID (V v0)). set (s1 := sID (V v1)).
  destruct (closest_path_policy ((sid_y s0 - sid_y s1) mod n) ((sid_x s0 - sid_x s1) mod n)
              ((sid_y s1 - sid_y s0) mod n) ((sid_x s1 - sid_x s0) mod n))
    as (dy & yd & dx & xd & Hc & _ & _ & _ & _ & Hdy & Hdx).
  assert (Hr : route g s0 s1 = Ok (dy, yd, dx, xd)).
  { unfold route. rewrite deltas_toric by (done || lia). cbn [mbind res_bind].
    fold n. by rewrite Hc. }
  pose proof (Z.mod_pos_bound (sid_y s0 - sid_y s1) n Hn).
  pose proof (Z.mod_pos_bound (sid_y s1 - sid_y s0) n Hn).
  pose proof (Z.mod_pos_bound (sid_x s0 - sid_x s1) n Hn).
  pose proof (Z.mod_pos_bound (sid_x s1 - sid_x s0) n Hn).
  destruct (walk_trace_linked V yd (range_len dy) v0 Hl) as (t0 & Ht0 & Hlen0).
  destruct (walk_trace_linked V xd (range_len dx) v1 Hl) as (t1 & Ht1 & Hlen1).
  exists (t0 ++ t1), (dy + dx). split; [|split].
  - unfold pair_trace. fold s0 s1. rewrite Hr, Ht0, Ht1. done.
  - rewrite toric_weight_ok by lia. f_equal. rewrite Hdy, Hdx.
    replace (sid_y s1 - sid_y s0) with (- (sid_y s0 - sid_y s1)) by lia.
    replace (sid_x s1 - sid_x s0) with (- (sid_x s0 - sid_x s1)) by lia.
    by rewrite !min_mod_opp.
  - rewrite length_app, Hlen0, Hlen1. unfold range_len. lia.
Qed.

(** On a fully linked toric lattice of size [n > 0], [apply_matching]
    raises for no matching, and the number of edge flips of the run is the
    sum of the weights [toric.get_edges] gives the matched pairs. *)
Theorem toric_run_length (w : world) :
  graph_type (w_graph w) = "toric" -> 0 < graph_size (w_graph w) ->
  (forall v dir, is_Some (neighbors (w_V w v) dir)) ->
  exists t ws,
    matching_trace w = (t, None) /\
    (apply_matching w).2 = None /\
    Forall2 (fun p wt =>
               toric.weight (graph_size (w_graph w)) (sID (w_V w p.1)) (sID (w_V w p.2))
               = Ok wt)
      (w_matching w) ws /\
    Z.of_nat (length t) = foldr Z.add 0 ws.
Proof.
  intros Ht Hn Hl.
  assert (H : exists t ws,
    pairs_trace (w_graph w) (w_V w) (w_matching w) = (t, None) /\
    Forall2 (fun p wt =>
               toric.weight (graph_size (w_graph w)) (sID (w_V w p.1)) (sID (w_V w p.2))
               = Ok wt)
      (w_matching w) ws /\
    Z.of_nat (length t) = foldr Z.add 0 ws).
  { induction (w_matching w) as [|[v0 v1] m IH].
    - exists [], []. repeat split. constructor.
    - destruct IH as (t & ws & Htr & HF & Hlen).
      destruct (toric_pair_trace_length (w_graph w) (w_V w) v0 v1 Ht Hn Hl)
        as (t0 & wt & Hp & Hw & Hl0).
      exists (t0 ++ t), (wt :: ws). split; [|split].
      + cbn [pairs_trace]. by rewrite Hp, Htr.
      + by constructor.
      + rewrite length_app. simpl. lia. }
  destruct H as (t & ws & Htr & HF & Hlen).
  exists t, ws. split; [exact Htr|]. split; [|by split].
  rewrite apply_matching_trace_spec. unfold matching_trace. by rewrite Htr.
Qed.

(** * Where the two legs of a toric walk end *)

Lemma walk_end_iter (V : vref -> vertex) (dir : direction) (F : sID_t -> sID_t) :
  (forall v, exists v' e, neighbors (V v) dir = Some (v', e)
                          /\ sID (V v') = F (sID (V v))) ->
  forall k v, exists a, walk_end V dir k v = Some a
                        /\ sID (V a) = Nat.iter k F (sID (V v)).
Proof.
  intros HF k. induction k as [|k IH]; intros v.
  - by exists v.
  - destruct (HF v) as (v' & e & Hn & Hs). destruct (IH v') as (a & Ha & Hsa).
    exists a. simpl. rewrite Hn. split; [done|].
    rewrite Hsa, Hs. symmetry. apply Nat.iter_succ_r.
Qed.

Lemma iter_row_steps (n d t y x : Z) (k : nat) :
  0 < n -> 0 <= y < n ->
  Nat.iter k (fun s : sID_t => (sid_type s, (sid_y s + d) mod n, sid_x s)) (t, y, x)
  = (t, (y + Z.of_nat k * d) mod n, x).
Proof.
  intros Hn Hy. induction k as [|k IH].
  - simpl. by rewrite Z.add_0_r, Z.mod_small.
  - rewrite Nat.iter_succ, IH. unfold sid_type, sid_y, sid_x. simpl fst. simpl snd.
    rewrite Zplus_mod_idemp_l. do 2 f_equal. f_equal. lia.
Qed.

Lemma iter_column_steps (n d t y x : Z) (k : nat) :
  0 < n -> 0 <= x < n ->
  Nat.iter k (fun s : sID_t => (sid_type s, sid_y s, (sid_x s + d) mod n)) (t, y, x)
  = (t, y, (x + Z.of_nat k * d) mod n).
Proof.
  intros Hn Hx. induction k as [|k IH].
  - simpl. by rewrite Z.add_0_r, Z.mod_small.
  - rewrite Nat.iter_succ, IH. unfold sid_type, sid_y, sid_x. simpl fst. simpl snd.
    rewrite Zplus_mod_idemp_l. do 2 f_equal. lia.
Qed.

(** On a toric lattice of size [n > 0] whose links lead to the neighbouring
    site in each direction ("u" one row up, "d" one row down, "l" one column
    left, "r" one column right, all modulo [n]), the vertical leg from [v0]
    and the horizontal leg from [v1] both raise nothing and end at the row of
    [v1] and the column of [v0]: the two legs meet. *)
Theorem toric_legs_meet (g : graph) (V : vref -> vertex) (v0 v1 : vref) :
  let n := graph_size g in
  graph_type g = "toric" -> 0 < n ->
  (forall v, exists vu eu vd ed vl el vr er,
     neighbors (V v) Dir_u = Some (vu, eu) /\
     sID (V vu) = (sid_type (sID (V v)), (sid_y (sID (V v)) - 1) mod n, sid_x (sID (V v))) /\
     neighbors (V v) Dir_d = Some (vd, ed) /\
     sID (V vd) = (sid_type (sID (V v)), (sid_y (sID (V v)) + 1) mod n, sid_x (sID (V v))) /\
     neighbors (V v) Dir_l = Some (vl, el) /\
     sID (V vl) = (sid_type (sID (V v)), sid_y (sID (V v)), (sid_x (sID (V v)) - 1) mod n) /\
     neighbors (V v) Dir_r = Some (vr, er) /\
     sID (V vr) = (sid_type (sID (V v)), sid_y (sID (V v)), (sid_x (sID (V v)) + 1) mod n)) ->
  0 <= sid_y (sID (V v0)) < n -> 0 <= sid_x (sID (V v0)) < n ->
  0 <= sid_y (sID (V v1)) < n -> 0 <= sid_x (sID (V v1)) < n ->
  exists dy yd dx xd a b,
    route g (sID (V v0)) (sID (V v1)) = Ok (dy, yd, dx, xd) /\
    walk_end V yd (range_len dy) v0 = Some a /\
    walk_end V xd (range_len dx) v1 = Some b /\
    sID (V a) = (sid_type (sID (V v0)), sid_y (sID (V v1)), sid_x (sID (V v0))) /\
    sID (V b) = (sid_type (sID (V v1)), sid_y (sID (V v1)), sid_x (sID (V v0))).
Proof.
  intros n Ht Hn Hlat Hy0 Hx0 Hy1 Hx1.
  assert (Hu : forall v, exists v' e, neighbors (V v) Dir_u = Some (v', e) /\
      sID (V v') = (fun s : sID_t => (sid_type s, (sid_y s + -1) mod n, sid_x s)) (sID (V v))).
  { intros v. destruct (Hlat v) as (vu & eu & _ & _ & _ & _ & _ & _ & H & Hs & _).
    exists vu, eu. split; [done|]. rewrite Hs. do 2 f_equal. }
  assert (Hd : forall v, exists v' e, neighbors (V v) Dir_d = Some (v', e) /\
      sID (V v') = (fun s : sID_t => (sid_type s, (sid_y s + 1) mod n, sid_x s)) (sID (V v))).
  { intros v. destruct (Hlat v) as (_ & _ & vd & ed & _ & _ & _ & _ & _ & _ & H & Hs & _).
    by exists vd, ed. }
  assert (Hl : forall v, exists v' e, neighbors (V v) Dir_l = Some (v', e) /\
      sID (V v') = (fun s : sID_t => (sid_type s, sid_y s, (sid_x s + -1) mod n)) (sID (V v))).
  { intros v.
    destruct (Hlat v) as (_ & _ & _ & _ & vl & el & _ & _ & _ & _ & _ & _ & H & Hs & _).
    exists vl, el. split; [done|]. rewrite Hs. do 2 f_equal. }
  assert (Hr : forall v, exists v' e, neighbors (V v) Dir_r = Some (v', e) /\
      sID (V v') = (fun s : sID_t => (sid_type s, sid_y s, (sid_x s + 1) mod n)) (sID (V v))).
  { intros v.
    destruct (Hlat v) as (_ & _ & _ & _ & _ & _ & vr & er & _ & _ & _ & _ & _ & _ & H & Hs).
    by exists vr, er. }
  destruct (sID (V v0)) as [[t0 y0] x0] eqn:Hs0.
  destruct (sID (V v1)) as [[t1 y1] x1] eqn:Hs1.
  change (sid_y (t0, y0, x0)) with y0 in *. change (sid_x (t0, y0, x0)) with x0 in *.
  change (sid_y (t1, y1, x1)) with y1 in *. change (sid_x (t1, y1, x1)) with x1 in *.
  change (sid_type (t0, y0, x0)) with t0. change (sid_type (t1, y1, x1)) with t1.
  pose proof (Z.mod_pos_bound (y0 - y1) n Hn).
  pose proof (Z.mod_pos_bound (y1 - y0) n Hn).
  pose proof (Z.mod_pos_bound (x0 - x1) n Hn).
  pose proof (Z.mod_pos_bound (x1 - x0) n Hn).
  assert (Hroute : route g (t0, y0, x0) (t1, y1, x1)
    = Ok (closest_path ((y0 - y1) mod n, (x0 - x1) mod n, (y1 - y0) mod n, (x1 - x0) mod n))).
  { unfold route. rewrite deltas_toric by (done || lia). reflexivity. }
  unfold closest_path in Hroute.
  assert (Hrow : forall dy yd,
    (if (y0 - y1) mod n <? (y1 - y0) mod n
     then ((y0 - y1) mod n, Dir_u) else ((y1 - y0) mod n, Dir_d)) = (dy, yd) ->
    exists a, walk_end V yd (range_len dy) v0 = Some a /\ sID (V a) = (t0, y1, x0)).
  { intros dy yd Hc. destruct ((y0 - y1) mod n <? (y1 - y0) mod n); injection Hc as <- <-.
    - destruct (walk_end_iter V Dir_u _ Hu (range_len ((y0 - y1) mod n)) v0) as (a & Ha & Hsa).
      exists a. split; [done|]. rewrite Hsa, Hs0, iter_row_steps by done.
      unfold range_len. rewrite Z2Nat.id by lia.
      replace (y0 + (y0 - y1) mod n * -1) with (y0 - (y0 - y1) mod n) by lia.
      rewrite Zminus_mod_idemp_r. replace (y0 - (y0 - y1)) with y1 by lia.
      by rewrite Z.mod_small.
    - destruct (walk_end_iter V Dir_d _ Hd (range_len ((y1 - y0) mod n)) v0) as (a & Ha & Hsa).
      exists a. split; [done|]. rewrite Hsa, Hs0, iter_row_steps by done.
      unfold range_len. rewrite Z2Nat.id by lia.
      rewrite Z.mul_1_r, Zplus_mod_idemp_r. replace (y0 + (y1 - y0)) with y1 by lia.
      by rewrite Z.mod_small. }
  assert (Hcol : forall dx xd,
    (if (x0 - x1) mod n <? (x1 - x0) mod n
     then ((x0 - x1) mod n, Dir_r) else ((x1 - x0) mod n, Dir_l)) = (dx, xd) ->
    exists b, walk_end V xd (range_len dx) v1 = Some b /\ sID (V b) = (t1, y1, x0)).
  { intros dx xd Hc. destruct ((x0 - x1) mod n <? (x1 - x0) mod n); injection Hc as <- <-.
    - destruct (walk_end_iter V Dir_r _ Hr (range_len ((x0 - x1) mod n)) v1) as (b & Hb & Hsb).
      exists b. split; [done|]. rewrite Hsb, Hs1, iter_column_steps by done.
      unfold range_len. rewrite Z2Nat.id by lia.
      rewrite Z.mul_1_r, Zplus_mod_idemp_r. replace (x1 + (x0 - x1)) with x0 by lia.
      by rewrite Z.mod_small.
    - destruct (walk_end_iter V Dir_l _ Hl (range_len ((x1 - x0) mod n)) v1) as (b & Hb & Hsb).
      exists b. split; [done|]. rewrite Hsb, Hs1, iter_column_steps by done.
      unfold range_len. rewrite Z2Nat.id by lia.
      replace (x1 + (x1 - x0) mod n * -1) with (x1 - (x1 - x0) mod n) by lia.
      rewrite Zminus_mod_idemp_r. replace (x1 - (x1 - x0)) with x0 by lia.
      by rewrite Z.mod_small. }
  destruct (if (y0 - y1) mod n <? (y1 - y0) mod n
            then ((y0 - y1) mod n, Dir_u) else ((y1 - y0) mod n, Dir_d))
    as [dy yd] eqn:Hcy.
  destruct (if (x0 - x1) mod n <? (x1 - x0) mod n
            then ((x0 - x1) mod n, Dir_r) else ((x1 - x0) mod n, Dir_l))
    as [dx xd] eqn:Hcx.
  destruct (Hrow dy yd eq_refl) as (a & Ha & Hsa).
  destruct (Hcol dx xd eq_refl) as (b & Hb & Hsb).
  by exists dy, yd, dx, xd, a, b.
Qed.

(** * Instances of the further conditional statements *)

Lemma toric_get_edges_degenerate_instance :
  let g := Graph 0 "toric" [] ∅ in
  let V := lattice.tor_vertex 4 [] in
  ((length [5%nat] < 2)%nat /\ toric.get_edges g V [5%nat] = Ok []) /\
  ((2 <= length [0; 5]%nat)%nat /\ graph_size g = 0 /\
   toric.get_edges g V [0; 5]%nat = Raise ZeroDivisionError).
Proof.
  intros g V. split.
  - assert (Hlen : (length [5%nat] < 2)%nat) by (simpl; lia).
    split; [exact Hlen|].
    exact (proj1 (toric_get_edges_degenerate g V [5%nat]) Hlen).
  - assert (Hlen : (2 <= length [0; 5]%nat)%nat) by (simpl; lia).
    split; [exact Hlen|]. split; [reflexivity|].
    exact (proj2 (toric_get_edges_degenerate g V [0; 5]%nat) Hlen eq_refl).
Defined.

Lemma toric_weight_metric_instance :
  0 < 4 /\
  exists wab wbc wac,
    toric.weight 4 (0, 0, 0) (0, 3, 1) = Ok wab /\
    toric.weight 4 (0, 3, 1) (0, 2, 2) = Ok wbc /\
    toric.weight 4 (0, 0, 0) (0, 2, 2) = Ok wac /\
    wac <= wab + wbc.
Proof.
  assert (Hn : 0 < 4) by lia. split; [exact Hn|].
  destruct (toric_weight_metric 4 (0, 0, 0) (0, 3, 1) (0, 2, 2) Hn)
    as (wab & wbc & wac & H1 & H2 & H3 & _ & _ & Htri).
  exists wab, wbc, wac. split; [exact H1|]. split; [exact H2|]. split; [exact H3|exact Htri].
Defined.

Lemma toric_get_edges_in_range_instance :
  0 < graph_size (lattice.tor_graph 4) /\
  exists edges,
    toric.get_edges (lattice.tor_graph 4) (lattice.tor_vertex 4 []) [0; 2; 5]%nat = Ok edges /\
    forall i j w, ((i, j), w) ∈ edges -> 0 <= w <= 4.
Proof.
  assert (Hn : 0 < graph_size (lattice.tor_graph 4)) by (simpl; lia).
  split; [exact Hn|].
  destruct (toric_get_edges_in_range (lattice.tor_graph 4) (lattice.tor_vertex 4 [])
              [0; 2; 5]%nat Hn) as (edges & Heq & Hr).
  exists edges. split; [exact Heq|]. intros i j w Hin.
  exact (proj2 (proj2 (Hr i j w Hin))).
Defined.

Lemma planar_get_stabs_missing_boundary_instance :
  let g := Graph 4 "planar" (graph_S (lattice.pl_graph 4)) ∅ in
  let V := lattice.pl_vertex 4 [14%nat] in
  (14%nat ∈ S_values g /\ stab_state (V 14%nat) = true /\
   graph_B g !! (0, 1, 0) = None) /\
  planar.get_stabs g V = Raise KeyError.
Proof.
  intros g V.
  assert (Hin : 14%nat ∈ S_values g).
  { apply list_elem_of_In. vm_compute. tauto. }
  assert (Hst : stab_state (V 14%nat) = true) by (vm_compute; reflexivity).
  assert (Hk : graph_B g !! (0, 1, 0) = None) by apply lookup_empty.
  split; [by split|].
  assert (Hn : Z.abs (graph_size g) <= 2 ^ 53) by (apply Z.leb_le; vm_compute; reflexivity).
  apply (planar_get_stabs_missing_boundary g V Hn).
  exists 14%nat. split; [exact Hin|]. split; [exact Hst|]. apply lookup_empty.
Defined.

Lemma pl4_boundary_keys (v : vref) :
  let g := lattice.pl_graph 4 in
  let V := lattice.pl_vertex 4 [14; 16; 50]%nat in
  v ∈ S_values g -> stab_state (V v) = true ->
  is_Some (graph_B g !!
    (if sid_type (sID (V v)) =? 0
     then (0, sid_y (sID (V v)), if 2 * sid_x (sID (V v)) <? graph_size g then 0 else graph_size g)
     else (sid_type (sID (V v)),
           if 2 * sid_y (sID (V v)) <? graph_size g then -1 else graph_size g - 1,
           sid_x (sID (V v))))).
Proof.
  intros g V _ Hst. simpl in Hst. apply bool_decide_eq_true_1 in Hst.
  repeat (apply elem_of_cons in Hst as [->|Hst]);
    [vm_compute; eauto..|by apply elem_of_nil in Hst].
Qed.

Lemma pl4_boundary_ids (key : sID_t) (b : vref) :
  graph_B (lattice.pl_graph 4) !! key = Some b ->
  sID (lattice.pl_vertex 4 [14; 16; 50]%nat b) = key.
Proof.
  intros H. apply elem_of_list_to_map_2 in H. apply list_elem_of_In in H.
  vm_compute in H.
  repeat (destruct H as [H|H]; [injection H as <- <-; vm_compute; reflexivity|]).
  destruct H.
Qed.

Lemma planar_companion_weights_instance :
  let g := lattice.pl_graph 4 in
  let V := lattice.pl_vertex 4 [14; 16; 50]%nat in
  exists vs ps ev ep,
    planar.get_stabs g V = Ok (vs, ps) /\
    planar.get_edges g V vs = Ok ev /\
    planar.get_edges g V ps = Ok ep.
Proof.
  intros g V.
  assert (Hn : Z.abs (graph_size g) <= 2 ^ 53) by (apply Z.leb_le; vm_compute; reflexivity).
  destruct (planar_companion_weights g V Hn (pl4_boundary_keys) (pl4_boundary_ids))
    as (vs & ps & ev & ep & H1 & H2 & H3 & _).
  exists vs, ps, ev, ep. split; [exact H1|]. split; [exact H2|exact H3].
Defined.

Lemma tor4_none_active (v : vref) :
  v ∈ S_values (w_graph (lattice.tor_world 4 [] [(0, 1)]%nat)) ->
  stab_state (w_V (lattice.tor_world 4 [] [(0, 1)]%nat) v) = false.
Proof. intros _. reflexivity. Qed.

Lemma empty_syndrome_no_correction_instance :
  let w := lattice.tor_world 4 [] [(0, 1)]%nat in
  get_matching_networkx oracle.max_weight_matching toric_class w = (set_matching [] w, None) /\
  get_matching_blossom5 oracle.getMatching toric_class w = (set_matching [] w, None).
Proof.
  intros w.
  destruct (empty_syndrome_no_correction oracle.max_weight_matching oracle.getMatching
              toric_class w (or_introl eq_refl) tor4_none_active) as (H1 & H2 & _).
  split; [exact H1|exact H2].
Defined.

Lemma toric_matching_pairs_same_kind_instance :
  let w := lattice.tor_world 4 [0; 1; 21; 22]%nat [] in
  exists w',
    get_matching_blossom5 oracle.getMatching toric_class w = (w', None) /\
    forall a b, (a, b) ∈ w_matching w' ->
      (sid_type (sID (w_V w a)) = 0 <-> sid_type (sID (w_V w b)) = 0).
Proof.
  intros w.
  assert (Hr : (get_matching_blossom5 oracle.getMatching toric_class w).2 = None)
    by (vm_compute; reflexivity).
  destruct (get_matching_blossom5 oracle.getMatching toric_class w) as [w' r] eqn:Heq.
  simpl in Hr. subst r. exists w'. split; [reflexivity|].
  intros a b Hin.
  destruct (toric_matching_pairs_same_kind oracle.max_weight_matching oracle.getMatching
              w w' (or_intror Heq)) as (_ & _ & _ & Hp).
  exact (proj2 (proj2 (proj2 (proj2 (Hp a b Hin))))).
Defined.

Lemma blossom5_partner_array_pairs_instance :
  let w := lattice.tor_world 4 [0; 1; 10; 11]%nat [] in
  let anyons := [0; 1; 10; 11]%nat in
  let edges : list wedge :=
    [((0%nat, 1%nat), 1); ((0%nat, 2%nat), 4); ((0%nat, 3%nat), 3);
     ((1%nat, 2%nat), 3); ((1%nat, 3%nat), 4); ((2%nat, 3%nat), 1)] in
  oracle.getMatching (length anyons) edges = [1; 0; 3; 2] /\
  exists m, blossom5_get_matching oracle.getMatching toric_class w anyons = Ok m /\
            length m = 2%nat.
Proof.
  intros w anyons edges.
  assert (Hout : oracle.getMatching (length anyons) edges = [1; 0; 3; 2])
    by (vm_compute; reflexivity).
  split; [exact Hout|].
  assert (He : cls_get_edges toric_class (w_graph w) (w_V w) anyons = Ok edges)
    by (vm_compute; reflexivity).
  assert (Hlen : length (oracle.getMatching (length anyons) edges) = length anyons)
    by (rewrite Hout; reflexivity).
  assert (Hinv : forall i j, oracle.getMatching (length anyons) edges !! i = Some j ->
     0 <= j /\ j <> Z.of_nat i
     /\ oracle.getMatching (length anyons) edges !! Z.to_nat j = Some (Z.of_nat i)).
  { rewrite Hout. intros i j H.
    destruct i as [|[|[|[|i]]]]; simpl in H; try discriminate H;
      injection H as <-; (split; [lia|]); (split; [lia|]); reflexivity. }
  destruct (blossom5_partner_array_pairs oracle.getMatching toric_class w anyons edges
              He Hlen Hinv) as (m & Hm & HF & _).
  exists m. split; [exact Hm|].
  assert (Hc : blossom5_get_matching oracle.getMatching toric_class w anyons
               = Ok [(1, 0); (11, 10)]%nat) by (vm_compute; reflexivity).
  rewrite Hc in Hm. by injection Hm as <-.
Defined.

Lemma blossom5_negative_entry_wraps_instance :
  let w := lattice.tor_world 4 [0; 1; 10]%nat [] in
  let anyons := [0; 1; 10]%nat in
  let edges : list wedge :=
    [((0%nat, 1%nat), 1); ((0%nat, 2%nat), 4); ((1%nat, 2%nat), 3)] in
  oracle.getMatching (length anyons) edges = [-1; -1; -1] /\
  (0%nat, 10%nat) ∈ [(0, 10); (1, 10); (10, 10)]%nat.
Proof.
  intros w anyons edges.
  assert (Hout : oracle.getMatching (length anyons) edges = [-1; -1; -1])
    by (vm_compute; reflexivity).
  split; [exact Hout|].
  assert (He : cls_get_edges toric_class (w_graph w) (w_V w) anyons = Ok edges)
    by (vm_compute; reflexivity).
  assert (Hm : blossom5_get_matching oracle.getMatching toric_class w anyons
               = Ok [(0, 10); (1, 10); (10, 10)]%nat) by (vm_compute; reflexivity).
  assert (H0 : oracle.getMatching (length anyons) edges !! 0%nat = Some (-1))
    by (rewrite Hout; reflexivity).
  exact (blossom5_negative_entry_wraps oracle.getMatching toric_class w anyons edges
           _ 0%nat 0%nat 10%nat He H0 eq_refl eq_refl Hm).
Defined.

Lemma networkx_second_graph_instance :
  let w := lattice.tor_world 4 [0; 1; 10; 11; 21; 22]%nat [] in
  0 < graph_size (w_graph w) /\
  exists c,
    ((0%nat, 3%nat), c) ∈
      (networkx_get_matching oracle.max_weight_matching toric_class w
         (networkx_get_matching oracle.max_weight_matching toric_class w []
            [0; 1; 10; 11]%nat).1
         [21; 22]%nat).1.
Proof.
  intros w.
  assert (Hn : 0 < graph_size (w_graph w)) by (simpl; lia).
  split; [exact Hn|].
  destruct (networkx_second_graph oracle.max_weight_matching w
              [0; 1; 10; 11]%nat [21; 22]%nat Hn) as (ev & ep & _ & _ & _ & _ & Hstale).
  apply Hstale; simpl; lia.
Defined.

Lemma apply_matching_bad_geometry_instance :
  let w := World (Graph 4 "cubic" [] ∅) (lattice.tor_vertex 4 []) lattice.clean
             [(0, 5)]%nat in
  w_matching w = [(0, 5)]%nat /\
  graph_type (w_graph w) <> "toric" /\ graph_type (w_graph w) <> "planar" /\
  apply_matching w = (w, Some UnboundLocalError).
Proof.
  intros w.
  assert (H1 : graph_type (w_graph w) <> "toric") by discriminate.
  assert (H2 : graph_type (w_graph w) <> "planar") by discriminate.
  split; [reflexivity|]. split; [exact H1|]. split; [exact H2|].
  exact (proj1 (apply_matching_bad_geometry w (0, 5)%nat [] eq_refl) H1 H2).
Defined.

Lemma apply_matching_order_irrelevant_instance :
  let w := lattice.tor_world 8 [0; 1; 2; 3]%nat [] in
  [(0, 2); (1, 3)]%nat ≡ₚ [(1, 3); (0, 2)]%nat /\
  (apply_matching (set_matching [(0, 2); (1, 3)]%nat w)).2 = None /\
  (apply_matching (set_matching [(1, 3); (0, 2)]%nat w)).2 = None.
Proof.
  intros w.
  assert (Hp : [(0, 2); (1, 3)]%nat ≡ₚ [(1, 3); (0, 2)]%nat) by apply Permutation_swap.
  assert (Hok : (apply_matching (set_matching [(0, 2); (1, 3)]%nat w)).2 = None)
    by (vm_compute; reflexivity).
  split; [exact Hp|]. split; [exact Hok|].
  exact (proj1 (apply_matching_order_irrelevant w _ _ Hp Hok)).
Defined.

Lemma tor_links_some (L : nat) (active : list vref) (v : vref) (dir : direction) :
  is_Some (neighbors (lattice.tor_vertex L active v) dir).
Proof. destruct dir; simpl; eauto. Qed.

Lemma toric_run_length_instance :
  let w := lattice.tor_world 8 [0; 1; 2; 3]%nat [(0, 2); (1, 3)]%nat in
  graph_type (w_graph w) = "toric" /\ 0 < graph_size (w_graph w) /\
  exists t, matching_trace w = (t, None) /\ length t = 4%nat.
Proof.
  intros w.
  assert (Hn : 0 < graph_size (w_graph w)) by (simpl; lia).
  split; [reflexivity|]. split; [exact Hn|].
  destruct (toric_run_length w eq_refl Hn (tor_links_some 8 _))
    as (t & ws & Ht & _ & _ & _).
  exists t. split; [exact Ht|].
  assert (Hc : matching_trace w = ([2; 0; 4; 2]%nat, None)) by (vm_compute; reflexivity).
  rewrite Hc in Ht. by injection Ht as <-.
Defined.

Lemma tor4_links (v : vref) :
  let V := lattice.tor_vertex 4 [] in
  exists vu eu vd ed vl el vr er,
     neighbors (V v) Dir_u = Some (vu, eu) /\
     sID (V vu) = (sid_type (sID (V v)), (sid_y (sID (V v)) - 1) mod 4, sid_x (sID (V v))) /\
     neighbors (V v) Dir_d = Some (vd, ed) /\
     sID (V vd) = (sid_type (sID (V v)), (sid_y (sID (V v)) + 1) mod 4, sid_x (sID (V v))) /\
     neighbors (V v) Dir_l = Some (vl, el) /\
     sID (V vl) = (sid_type (sID (V v)), sid_y (sID (V v)), (sid_x (sID (V v)) - 1) mod 4) /\
     neighbors (V v) Dir_r = Some (vr, er) /\
     sID (V vr) = (sid_type (sID (V v)), sid_y (sID (V v)), (sid_x (sID (V v)) + 1) mod 4).
Proof.
  intros V. eexists _, _, _, _, _, _, _, _.
  unfold V, lattice.tor_vertex, lattice.tor_ref, sid_type, sid_y, sid_x.
  cbn [sID neighbors fst snd]. change (4 * 4)%nat with 16%nat.
  rewrite !pair_equal_spec. repeat split; lia.
Qed.

Lemma toric_legs_meet_instance :
  let g := lattice.tor_graph 4 in
  let V := lattice.tor_vertex 4 [] in
  graph_type g = "toric" /\ 0 < graph_size g /\
  exists a b,
    walk_end V Dir_u 1 1%nat = Some a /\ walk_end V Dir_l 1 14%nat = Some b /\
    sID (V a) = (0, 3, 1) /\ sID (V b) = (0, 3, 1).
Proof.
  intros g V.
  assert (Hn : 0 < graph_size g) by (simpl; lia).
  split; [reflexivity|]. split; [exact Hn|].
  destruct (toric_legs_meet g V 1%nat 14%nat eq_refl Hn tor4_links)
    as (dy & yd & dx & xd & a & b & Hr & Ha & Hb & Hsa & Hsb);
    [split; [apply Z.leb_le|apply Z.ltb_lt]; vm_compute; reflexivity..|].
  assert (Hr' : route g (sID (V 1%nat)) (sID (V 14%nat)) = Ok (1, Dir_u, 1, Dir_l))
    by (vm_compute; reflexivity).
  rewrite Hr' in Hr. injection Hr as <- <- <- <-.
  exists a, b. split; [exact Ha|]. split; [exact Hb|]. split; [exact Hsa|exact Hsb].
Defined.
